(** * Verification of the DynamoDB support code of barchart/common-node-js

    The development embeds, shallowly, the parts of the repository that carry
    invariants:

    - [Schema]: the [Table] definition ([validate], [toTableSchema], the
      [keys]/[indicies] getters) over a store of JavaScript arrays;
    - [Serialization]: the attribute serializers (string, JSON, compressed
      JSON, encrypted JSON, encrypted string);
    - [ScanReader]: [DynamoScanReader._read], a pull-driven reader over a
      paginated scan, as a transition system;
    - [Provider]: [DynamoProvider.start] and its promise chain, and the
      paged listing of [getTables];
    - [Lambda]: the write-once fields of [LambdaBuilder].

    JavaScript objects that are shared and mutated (arrays) live in a [gmap]
    store and are referred to by location; exceptions are an explicit
    [Completion]. *)

From Stdlib Require Import String List Bool Arith Lia.
From stdpp Require Import base option list gmap strings.

Local Open Scope string_scope.
Local Open Scope list_scope.

(* A lemma of a section depends on the section variables of its statement only. *)
Set Default Proof Using "Type".

(** ** Completions: a JavaScript call returns or throws *)

Inductive Completion (A : Type) : Type :=
| Normal (a : A)
| Throw (msg : string).

Arguments Normal {A} a.
Arguments Throw {A} msg.

(** [c] is an abrupt completion: some error was thrown. *)
Definition throws {A} (c : Completion A) : Prop :=
  exists msg, c = Throw msg.

(** ** Enumerations of the schema model *)

Module KeyType.
Inductive t := HASH | RANGE.

Definition eqb (a b : t) : bool :=
  match a, b with
  | HASH, HASH | RANGE, RANGE => true
  | _, _ => false
  end.
End KeyType.

Module IndexType.
Inductive t := GLOBAL_SECONDARY | LOCAL_SECONDARY.

Definition eqb (a b : t) : bool :=
  match a, b with
  | GLOBAL_SECONDARY, GLOBAL_SECONDARY | LOCAL_SECONDARY, LOCAL_SECONDARY => true
  | _, _ => false
  end.
End IndexType.

Module DataType.
Inductive t := STRING | NUMBER | BINARY | BOOLEAN.

(** The property name of the single-tag wire record. *)
Definition code (d : t) : string :=
  match d with
  | STRING => "S"
  | NUMBER => "N"
  | BINARY => "B"
  | BOOLEAN => "BOOL"
  end.

Definition eqb (a b : t) : bool :=
  match a, b with
  | STRING, STRING | NUMBER, NUMBER | BINARY, BINARY | BOOLEAN, BOOLEAN => true
  | _, _ => false
  end.
End DataType.

Module EncryptionType.
Inductive t := AES_192 | AES_256.
End EncryptionType.

Module Encryptor.
Record t := { type : EncryptionType.t; key : string }.
End Encryptor.

Module Attribute.
Record t := {
  name : string;
  dataType : DataType.t;
  encryptor : option Encryptor.t
}.
End Attribute.

Module Key.
Record t := { attribute : Attribute.t; keyType : KeyType.t }.
End Key.

Module Index.
Record t := {
  name : string;
  keys : list Key.t;
  type : IndexType.t;
  projection : string
}.
End Index.

Module ProvisionedThroughput.
Record t := { read : nat; write : nat }.
End ProvisionedThroughput.

(** ** The Table definition *)

Module Schema.

(** What a JavaScript array of the schema may hold: instances of [Key], of
    [Index], or any other value (here named by a description). *)
Inductive Entry :=
| EKey (k : Key.t)
| EIndex (i : Index.t)
| EOther (description : string).

Definition as_Key (e : Entry) : option Key.t :=
  match e with EKey k => Some k | _ => None end.

Definition as_Index (e : Entry) : option Index.t :=
  match e with EIndex i => Some i | _ => None end.

(** Arrays are objects: they live in a store and are passed by reference. *)
Abbreviation loc := positive.
Abbreviation Store := (gmap positive (list Entry)).

(** The value held by [_keys] and [_indices]: a reference to an array, or some
    other truthy value, which may still be iterable (a string, a [Set]) and
    then yields elements. *)
Inductive ArrVal :=
| ARef (l : loc)
| AIterable (elements : list Entry)
| ANotIterable.

(** The value held by [_name]. *)
Inductive NameVal :=
| NStr (s : string)
| NNotString.

(** An optional constructor argument: a falsy one is replaced by [[ ]]. *)
Inductive CtorArg :=
| Falsy
| Given (v : ArrVal).

Record Table := {
  _name : NameVal;
  _keys : ArrVal;
  _indices : ArrVal;
  _provisionedThroughput : ProvisionedThroughput.t
}.

(** [is.array(v)] together with the elements read through the reference. *)
Definition arr_of (h : Store) (v : ArrVal) : option (list Entry) :=
  match v with
  | ARef l => h !! l
  | AIterable _ | ANotIterable => None
  end.

(** The elements [[...v]] iterates over, if [v] is iterable. *)
Definition iterate (h : Store) (v : ArrVal) : option (list Entry) :=
  match v with
  | ARef l => h !! l
  | AIterable xs => Some xs
  | ANotIterable => None
  end.

(** [x || [ ]]: a fresh empty array is allocated when [x] is falsy. *)
Definition or_empty (a : CtorArg) (h : Store) : ArrVal * Store :=
  match a with
  | Given v => (v, h)
  | Falsy => let l := fresh (dom h) in (ARef l, <[l := []]> h)
  end.

(** [new Table(name, keys, indicies, provisionedThroughput)] *)
Definition new (name : NameVal) (keys indicies : CtorArg)
    (provisionedThroughput : ProvisionedThroughput.t) (h : Store) : Table * Store :=
  let (ks, h1) := or_empty keys h in
  let (ixs, h2) := or_empty indicies h1 in
  ({| _name := name; _keys := ks; _indices := ixs;
      _provisionedThroughput := provisionedThroughput |}, h2).

(** [get keys()] is [[...this._keys]]: a new array with the same elements.
    Spreading a value that is not iterable throws. *)
Definition spread (v : ArrVal) (h : Store) : Completion loc * Store :=
  match iterate h v with
  | Some xs => let l := fresh (dom h) in (Normal l, <[l := xs]> h)
  | None => (Throw "TypeError: object is not iterable", h)
  end.

Definition keys (t : Table) (h : Store) : Completion loc * Store :=
  spread (_keys t) h.

Definition indicies (t : Table) (h : Store) : Completion loc * Store :=
  spread (_indices t) h.

(** The elements of the array a getter hands out, read right after the call. *)
Definition contents (r : Completion loc * Store) : option (list Entry) :=
  match r with
  | (Normal l, h) => h !! l
  | (Throw _, _) => None
  end.

(** [!is.string(name) || name.length < 1] *)
Definition name_invalid (n : NameVal) : bool :=
  match n with
  | NStr s => (String.length s <? 1)%nat
  | NNotString => true
  end.

(** [l.forEach(x => x.validate())]: the first exception stops the loop. *)
Fixpoint forEach {A} (f : A -> Completion unit) (l : list A) : Completion unit :=
  match l with
  | [] => Normal tt
  | x :: r =>
      match f x with
      | Normal _ => forEach f r
      | Throw m => Throw m
      end
  end.

Definition is_hash (k : Key.t) : bool := KeyType.eqb (Key.keyType k) KeyType.HASH.

Definition key_names (ks : list Key.t) : list string :=
  List.map (fun k => Attribute.name (Key.attribute k)) ks.

Definition index_names (ixs : list Index.t) : list string :=
  List.map Index.name ixs.

Definition is_global (i : Index.t) : bool :=
  IndexType.eqb (Index.type i) IndexType.GLOBAL_SECONDARY.

Definition is_local (i : Index.t) : bool :=
  IndexType.eqb (Index.type i) IndexType.LOCAL_SECONDARY.

(** ** Stand-ins for the collaborators

    The methods of [Key], [Index], [Attribute] and [ProvisionedThroughput] and
    [array.unique] are parameters of [validate] and [toTableSchema] below.
    These definitions give them a concrete reading, used to run the model on
    examples. *)

Module Model.

(** Modelled from the spec: [array.unique] of the common library, as the test
    that the names are unique (invariants 4 and 5). *)
Definition unique (names : list string) : bool := bool_decide (NoDup names).

(** Modelled from the spec: [Attribute.validate], "attribute name present,
    valid data type" (invariant 6). *)
Definition Attribute_validate (a : Attribute.t) : Completion unit :=
  if (String.length (Attribute.name a) <? 1)%nat
  then Throw "Attribute name is invalid." else Normal tt.

(** Modelled from the spec: [Key.validate], which "must pass on the referenced
    attribute". *)
Definition Key_validate (k : Key.t) : Completion unit :=
  Attribute_validate (Key.attribute k).

(** Modelled from the spec: [Index.validate], a named index whose keys
    validate. *)
Definition Index_validate (i : Index.t) : Completion unit :=
  if (String.length (Index.name i) <? 1)%nat
  then Throw "Index name is invalid." else forEach Key_validate (Index.keys i).

(** Modelled from the spec: [ProvisionedThroughput.validate], read and write
    "each positive". *)
Definition ProvisionedThroughput_validate (p : ProvisionedThroughput.t) : Completion unit :=
  if (0 <? ProvisionedThroughput.read p)%nat && (0 <? ProvisionedThroughput.write p)%nat
  then Normal tt else Throw "Provisioned throughput is invalid.".

(** Modelled from the spec: the wire forms [{name, type}], [{name, role}] and
    [{read, write}] of section 4.1; an index is projected to its name and key
    schema. *)
Definition toAttributeSchema (a : Attribute.t) : string * string :=
  (Attribute.name a, DataType.code (Attribute.dataType a)).

Definition toKeySchema (k : Key.t) : string * KeyType.t :=
  (Attribute.name (Key.attribute k), Key.keyType k).

Definition toIndexSchema (i : Index.t) : string * list (string * KeyType.t) :=
  (Index.name i, List.map toKeySchema (Index.keys i)).

Definition toProvisionedThroughputSchema (p : ProvisionedThroughput.t) : nat * nat :=
  (ProvisionedThroughput.read p, ProvisionedThroughput.write p).

(** A table with one HASH key [id] (string), one RANGE key [ts] (number) and
    one global secondary index, in a store holding its two arrays. *)
Definition id_key : Key.t :=
  {| Key.attribute := {| Attribute.name := "id"; Attribute.dataType := DataType.STRING;
                         Attribute.encryptor := None |};
     Key.keyType := KeyType.HASH |}.

Definition ts_key : Key.t :=
  {| Key.attribute := {| Attribute.name := "ts"; Attribute.dataType := DataType.NUMBER;
                         Attribute.encryptor := None |};
     Key.keyType := KeyType.RANGE |}.

Definition by_ts : Index.t :=
  {| Index.name := "by-ts"; Index.keys := [ts_key];
     Index.type := IndexType.GLOBAL_SECONDARY; Index.projection := "ALL" |}.

Definition throughput : ProvisionedThroughput.t :=
  {| ProvisionedThroughput.read := 5; ProvisionedThroughput.write := 5 |}.

Definition store : Store :=
  <[2%positive := [EIndex by_ts]]> (<[1%positive := [EKey id_key; EKey ts_key]]> ∅).

Definition orders : Table :=
  {| _name := NStr "orders"; _keys := ARef 1; _indices := ARef 2;
     _provisionedThroughput := throughput |}.

(** The same table with a second HASH key. *)
Definition two_hash_store : Store :=
  <[2%positive := []]> (<[1%positive := [EKey id_key; EKey id_key]]> ∅).

End Model.

(** Any in-place mutation of the array at [l] ([push], [pop], [splice], an
    assignment to an index or to [length]) leaves some elements [xs] there. *)
Definition mutate (l : loc) (xs : list Entry) (h : Store) : Store := <[l := xs]> h.

(** The references a table holds point into the store. *)
Definition allocated (h : Store) (t : Table) : Prop :=
  (forall l, _keys t = ARef l -> is_Some (h !! l)) /\
  (forall l, _indices t = ARef l -> is_Some (h !! l)).

(** The HASH keys among the elements of a key array. *)
Definition hash_keys (es : list Entry) : list Key.t :=
  List.filter is_hash (omap as_Key es).

(** The constructor argument stands for an empty key set: it is falsy, or a
    reference to an empty array. *)
Definition empty_key_set (a : CtorArg) (h : Store) : Prop :=
  a = Falsy \/ exists l, a = Given (ARef l) /\ h !! l = Some [].

Section Methods.

(** Collaborators whose code is outside this unit: [array.unique] of the
    common library, used by [validate] as a test, and the methods of [Key],
    [Index], [Attribute] and [ProvisionedThroughput]. *)
Variable array_unique : list string -> bool.
Variable Key_validate : Key.t -> Completion unit.
Variable Index_validate : Index.t -> Completion unit.
Variable ProvisionedThroughput_validate : ProvisionedThroughput.t -> Completion unit.

Variables AttributeSchema KeySchemaElement IndexSchema ThroughputSchema : Type.
Variable toAttributeSchema : Attribute.t -> AttributeSchema.
Variable toKeySchema : Key.t -> KeySchemaElement.
Variable toIndexSchema : Index.t -> IndexSchema.
Variable toProvisionedThroughputSchema : ProvisionedThroughput.t -> ThroughputSchema.

(** [Table.validate]. [mapM as_Key ks] is [Some keys] exactly when every
    element is an instance of [Key], and then [keys] are those instances. *)
Definition validate (h : Store) (t : Table) : Completion unit :=
  if name_invalid (_name t) then Throw "Table name is invalid." else
  match arr_of h (_keys t) with
  | None => Throw "Table must have an array of keys."
  | Some ks =>
  match mapM as_Key ks with
  | None => Throw "Table key array can only contain Key instances."
  | Some keys =>
  if negb (length (List.filter is_hash keys) =? 1)%nat
  then Throw "Table must have one hash key." else
  if negb (array_unique (key_names keys))
  then Throw "Table key names must be unique (only one key with a given name)." else
  match arr_of h (_indices t) with
  | None => Throw "Table must have an array of indicies."
  | Some ixs =>
  match mapM as_Index ixs with
  | None => Throw "Table indicies array can only contain Index instances."
  | Some indices =>
  if negb (array_unique (index_names indices))
  then Throw "Table index names must be unique (only one index with a given name)." else
  match forEach Key_validate keys with
  | Throw m => Throw m
  | Normal _ =>
  match forEach Index_validate indices with
  | Throw m => Throw m
  | Normal _ => ProvisionedThroughput_validate (_provisionedThroughput t)
  end end end end end end.

Record TableSchema := {
  TableName : NameVal;
  AttributeDefinitions : list AttributeSchema;
  KeySchema : list KeySchemaElement;
  ProvisionedThroughput : ThroughputSchema;
  GlobalSecondaryIndexes : option (list IndexSchema);
  LocalSecondaryIndexes : option (list IndexSchema)
}.

(** An index field is assigned only under [if (xs.length !== 0)]. *)
Definition index_field (xs : list Index.t) : option (list IndexSchema) :=
  if negb (length xs =? 0)%nat then Some (List.map toIndexSchema xs) else None.

(** The elements behind a field that [validate] has accepted. *)
Definition key_instances (h : Store) (t : Table) : list Key.t :=
  default [] (arr_of h (_keys t) ≫= mapM as_Key).

Definition index_instances (h : Store) (t : Table) : list Index.t :=
  default [] (arr_of h (_indices t) ≫= mapM as_Index).

(** [Table.toTableSchema] *)
Definition toTableSchema (h : Store) (t : Table) : Completion TableSchema :=
  match validate h t with
  | Throw m => Throw m
  | Normal _ =>
      let keys := key_instances h t in
      let indices := index_instances h t in
      let globalIndicies := List.filter is_global indices in
      let localIndicies := List.filter is_local indices in
      Normal {|
        TableName := _name t;
        AttributeDefinitions := List.map (fun k => toAttributeSchema (Key.attribute k)) keys;
        KeySchema := List.map toKeySchema keys;
        ProvisionedThroughput := toProvisionedThroughputSchema (_provisionedThroughput t);
        GlobalSecondaryIndexes := index_field globalIndicies;
        LocalSecondaryIndexes := index_field localIndicies
      |}
  end.

(** The table invariants as the specification lists them (1 to 7), over a
    table whose key set is [keys] and whose index set is [indices]. *)
Record invariants (h : Store) (t : Table) (keys : list Key.t) (indices : list Index.t) : Prop := {
  inv_keys_stored : arr_of h (_keys t) = Some (EKey <$> keys);
  inv_indices_stored : arr_of h (_indices t) = Some (EIndex <$> indices);
  inv_name : exists s, _name t = NStr s /\ s <> "";
  inv_keys_nonempty : keys <> [];
  inv_one_hash : length (List.filter is_hash keys) = 1;
  inv_key_names : NoDup (key_names keys);
  inv_index_names : NoDup (index_names indices);
  inv_keys_valid : Forall (fun k => Key_validate k = Normal tt) keys;
  inv_indices_valid : Forall (fun i => Index_validate i = Normal tt) indices;
  inv_throughput : ProvisionedThroughput_validate (_provisionedThroughput t) = Normal tt
}.

(** Which invariant of the specification's list an error message of
    [validate] names. *)
Definition invariant_named (msg : string) : option nat :=
  if String.eqb msg "Table name is invalid." then Some 1
  else if String.eqb msg "Table must have an array of keys." then Some 2
  else if String.eqb msg "Table key array can only contain Key instances." then Some 2
  else if String.eqb msg "Table must have one hash key." then Some 3
  else if String.eqb msg "Table key names must be unique (only one key with a given name)." then Some 4
  else if String.eqb msg "Table index names must be unique (only one index with a given name)." then Some 5
  else None.

(** *** Reading the checks of [validate] *)

Lemma mapM_as_Key_fmap (keys : list Key.t) : mapM as_Key (EKey <$> keys) = Some keys.
Proof. induction keys as [|k keys IH]; [done|]. cbn. by rewrite IH. Qed.

Lemma mapM_as_Index_fmap (ixs : list Index.t) : mapM as_Index (EIndex <$> ixs) = Some ixs.
Proof. induction ixs as [|i ixs IH]; [done|]. cbn. by rewrite IH. Qed.

Lemma mapM_as_Key_Some (es : list Entry) (keys : list Key.t) :
  mapM as_Key es = Some keys -> es = EKey <$> keys.
Proof.
  revert keys. induction es as [|e es IH]; intros keys H; cbn in H.
  - by simplify_option_eq.
  - destruct e as [k| |]; simplify_option_eq. f_equal. by apply IH.
Qed.

Lemma mapM_as_Index_Some (es : list Entry) (ixs : list Index.t) :
  mapM as_Index es = Some ixs -> es = EIndex <$> ixs.
Proof.
  revert ixs. induction es as [|e es IH]; intros ixs H; cbn in H.
  - by simplify_option_eq.
  - destruct e as [|i|]; simplify_option_eq. f_equal. by apply IH.
Qed.

Lemma forEach_Normal {A} (f : A -> Completion unit) (l : list A) :
  forEach f l = Normal tt <-> Forall (fun x => f x = Normal tt) l.
Proof.
  induction l as [|x l IH]; cbn.
  - split; [constructor|done].
  - destruct (f x) as [[]|m] eqn:E.
    + rewrite IH. split; [by constructor|by inversion 1].
    + split; [done|]. inversion 1; congruence.
Qed.

Lemma name_invalid_false (n : NameVal) :
  name_invalid n = false <-> exists s, n = NStr s /\ s <> "".
Proof.
  destruct n as [s|]; cbn.
  - destruct s; cbn; split; try done.
    + intros (s & [= <-] & H). done.
    + intros _. eexists. split; [reflexivity|done].
  - split; [done|]. by intros (s & ? & _).
Qed.

(** What the checks of [validate] have established when it returns. *)
Lemma validate_Normal_checks (h : Store) (t : Table) :
  validate h t = Normal tt ->
  exists keys indices,
    arr_of h (_keys t) = Some (EKey <$> keys) /\
    arr_of h (_indices t) = Some (EIndex <$> indices) /\
    name_invalid (_name t) = false /\
    length (List.filter is_hash keys) = 1 /\
    array_unique (key_names keys) = true /\
    array_unique (index_names indices) = true /\
    forEach Key_validate keys = Normal tt /\
    forEach Index_validate indices = Normal tt /\
    ProvisionedThroughput_validate (_provisionedThroughput t) = Normal tt.
Proof.
  unfold validate.
  destruct (name_invalid (_name t)) eqn:En; [done|].
  destruct (arr_of h (_keys t)) as [ks|] eqn:Ek; [|done].
  destruct (mapM as_Key ks) as [keys|] eqn:Emk; [|done].
  destruct (length (List.filter is_hash keys) =? 1)%nat eqn:Eh; [|done]. cbn.
  destruct (array_unique (key_names keys)) eqn:Euk; [|done]. cbn.
  destruct (arr_of h (_indices t)) as [ixs|] eqn:Ei; [|done].
  destruct (mapM as_Index ixs) as [indices|] eqn:Emi; [|done].
  destruct (array_unique (index_names indices)) eqn:Eui; [|done]. cbn.
  destruct (forEach Key_validate keys) as [[]|] eqn:Efk; [|done].
  destruct (forEach Index_validate indices) as [[]|] eqn:Efi; [|done].
  intros Hpt. exists keys, indices.
  apply Nat.eqb_eq in Eh.
  rewrite <- (mapM_as_Key_Some _ _ Emk), <- (mapM_as_Index_Some _ _ Emi).
  by repeat split.
Qed.

(** [validate] returns exactly on the tables that satisfy the invariants,
    when [array.unique] tells whether the names are unique. *)
Lemma validate_Normal_invariants (h : Store) (t : Table) :
  (forall l, array_unique l = true <-> NoDup l) ->
  validate h t = Normal tt <-> exists keys indices, invariants h t keys indices.
Proof.
  intros Huniq. split.
  - intros Hv.
    destruct (validate_Normal_checks h t Hv)
      as (keys & indices & Hk & Hi & Hn & Hh & Hkn & Hin & Hkv & Hiv & Hpt).
    exists keys, indices. split; try done.
    + by apply name_invalid_false.
    + intros ->. discriminate.
    + by apply Huniq.
    + by apply Huniq.
    + by apply forEach_Normal.
    + by apply forEach_Normal.
  - intros (keys & indices & [Hk Hi Hn Hne Hh Hkn Hin Hkv Hiv Hpt]).
    unfold validate.
    apply name_invalid_false in Hn. rewrite Hn, Hk, mapM_as_Key_fmap, Hh. cbn.
    apply Huniq in Hkn, Hin. rewrite Hkn. cbn.
    rewrite Hi, mapM_as_Index_fmap, Hin. cbn.
    apply forEach_Normal in Hkv, Hiv. by rewrite Hkv, Hiv.
Qed.

Lemma validate_throws_or_valid (h : Store) (t : Table) :
  throws (validate h t) \/ validate h t = Normal tt.
Proof. destruct (validate h t) as [[]|m]; [by right|left; by exists m]. Qed.

Lemma omap_as_Key_fmap (keys : list Key.t) : omap as_Key (EKey <$> keys) = keys.
Proof. induction keys as [|k keys IH]; [done|]. cbn. by rewrite IH. Qed.

Lemma hash_keys_fmap (keys : list Key.t) :
  hash_keys (EKey <$> keys) = List.filter is_hash keys.
Proof. unfold hash_keys. by rewrite omap_as_Key_fmap. Qed.

(** *** The store outside a table's own arrays does not matter *)

Lemma validate_frame (h h' : Store) (t : Table) :
  arr_of h' (_keys t) = arr_of h (_keys t) ->
  arr_of h' (_indices t) = arr_of h (_indices t) ->
  validate h' t = validate h t.
Proof. intros Hk Hi. unfold validate. by rewrite Hk, Hi. Qed.

Lemma toTableSchema_frame (h h' : Store) (t : Table) :
  arr_of h' (_keys t) = arr_of h (_keys t) ->
  arr_of h' (_indices t) = arr_of h (_indices t) ->
  toTableSchema h' t = toTableSchema h t.
Proof.
  intros Hk Hi. unfold toTableSchema, key_instances, index_instances.
  by rewrite (validate_frame h h' t Hk Hi), Hk, Hi.
Qed.

Lemma contents_spread (v : ArrVal) (h : Store) : contents (spread v h) = iterate h v.
Proof.
  unfold spread. destruct (iterate h v) as [xs|] eqn:E; cbn; [|done].
  by rewrite lookup_insert_eq.
Qed.

Lemma iterate_arr_of (h h' : Store) (v : ArrVal) :
  arr_of h' v = arr_of h v -> iterate h' v = iterate h v.
Proof. by destruct v. Qed.

Lemma spread_Normal (v : ArrVal) (h h1 : Store) (l : loc) :
  spread v h = (Normal l, h1) ->
  exists xs, iterate h v = Some xs /\ h !! l = None /\ h1 = <[l := xs]> h.
Proof.
  unfold spread. destruct (iterate h v) as [xs|]; [|done].
  intros [= <- <-]. exists xs. split; [done|]. split; [|done].
  apply not_elem_of_dom, is_fresh.
Qed.

Lemma arr_of_mutate_fresh (h : Store) (l : loc) (xs ys : list Entry) (v : ArrVal) :
  h !! l = None ->
  (forall l0, v = ARef l0 -> is_Some (h !! l0)) ->
  arr_of (mutate l xs (<[l := ys]> h)) v = arr_of h v.
Proof.
  intros Hl Hv. destruct v as [l0| |]; [|done|done]. cbn. unfold mutate.
  destruct (Hv l0 eq_refl) as [zs Hz].
  rewrite !lookup_insert_ne; [done| |]; intros ->; congruence.
Qed.

Lemma new_keys_empty name keys indicies pt (h h' : Store) (t : Table) :
  empty_key_set keys h ->
  new name keys indicies pt h = (t, h') ->
  _name t = name /\ arr_of h' (_keys t) = Some [].
Proof.
  intros Hempty. unfold new.
  destruct Hempty as [->|(l & -> & Hl)]; cbn.
  - destruct indicies as [|v]; cbn; intros [= <- <-]; cbn; split; try done.
    + rewrite lookup_insert_ne; [by rewrite lookup_insert_eq|].
      intros E. pose proof (is_fresh (dom (<[fresh (dom h) := []]> h))) as Hf.
      rewrite E in Hf. apply Hf. rewrite dom_insert_L.
      apply elem_of_union_l, elem_of_singleton. reflexivity.
    + by rewrite lookup_insert_eq.
  - destruct indicies as [|v]; cbn; intros [= <- <-]; cbn; split; try done.
    rewrite lookup_insert_ne; [done|].
    intros <-. pose proof (is_fresh (dom h)) as Hf. apply Hf.
    apply elem_of_dom. by eexists.
Qed.

(** *** The claims about [Table] *)

(** The checks of [validate], with the two checks of names as they are
    meant. [validate] throws when the key array has no HASH key, when it has
    two, and when it holds an element that is no [Key]: that much holds
    whatever [array.unique] answers. Were [array.unique] a test of whether
    the names it is given are unique, [validate] would also throw when two
    keys have the same attribute name and when two indices have the same
    name, and return on every table that satisfies the invariants. The
    function of the common library is no such test: what [validate] does
    with it is the subject of the section after this one. *)
Lemma validate_rejects_and_accepts (h : Store) (t : Table) :
  (forall es, arr_of h (_keys t) = Some es ->
     length (hash_keys es) = 0 -> throws (validate h t)) /\
  (forall es, arr_of h (_keys t) = Some es ->
     length (hash_keys es) = 2 -> throws (validate h t)) /\
  (forall es e, arr_of h (_keys t) = Some es ->
     e ∈ es -> as_Key e = None -> throws (validate h t)) /\
  ((forall names, array_unique names = true <-> NoDup names) ->
   (forall es i j k1 k2, arr_of h (_keys t) = Some es ->
      i <> j -> es !! i = Some (EKey k1) -> es !! j = Some (EKey k2) ->
      Attribute.name (Key.attribute k1) = Attribute.name (Key.attribute k2) ->
      throws (validate h t)) /\
   (forall es i j x1 x2, arr_of h (_indices t) = Some es ->
      i <> j -> es !! i = Some (EIndex x1) -> es !! j = Some (EIndex x2) ->
      Index.name x1 = Index.name x2 ->
      throws (validate h t)) /\
   (forall keys indices, invariants h t keys indices -> validate h t = Normal tt)).
Proof.
  split; [|split; [|split]].
  - intros es Hes Hcount.
    destruct (validate_throws_or_valid h t) as [|Hv]; [done|exfalso].
    destruct (validate_Normal_checks h t Hv) as (keys & indices & Hk & _ & _ & Hh & _).
    rewrite Hk in Hes. injection Hes as <-.
    rewrite hash_keys_fmap, Hh in Hcount. discriminate.
  - intros es Hes Hcount.
    destruct (validate_throws_or_valid h t) as [|Hv]; [done|exfalso].
    destruct (validate_Normal_checks h t Hv) as (keys & indices & Hk & _ & _ & Hh & _).
    rewrite Hk in Hes. injection Hes as <-.
    rewrite hash_keys_fmap, Hh in Hcount. discriminate.
  - intros es e Hes He Hno.
    destruct (validate_throws_or_valid h t) as [|Hv]; [done|exfalso].
    destruct (validate_Normal_checks h t Hv) as (keys & indices & Hk & _).
    rewrite Hk in Hes. injection Hes as <-.
    apply list_elem_of_fmap in He as (k & -> & _). discriminate.
  - intros Huniq.
    assert (Hvalid : validate h t = Normal tt ->
                     exists keys indices, invariants h t keys indices)
      by (by apply validate_Normal_invariants).
    split; [|split].
    + intros es i j k1 k2 Hes Hij Hi Hj Hname.
      destruct (validate_throws_or_valid h t) as [|Hv]; [done|exfalso].
      destruct (Hvalid Hv) as (keys & indices & Hinv).
      rewrite (inv_keys_stored _ _ _ _ Hinv) in Hes. injection Hes as <-.
      rewrite list_lookup_fmap in Hi, Hj.
      destruct (keys !! i) as [k1'|] eqn:Ei; [|done].
      destruct (keys !! j) as [k2'|] eqn:Ej; [|done].
      cbn in Hi, Hj. simplify_eq.
      apply Hij.
      apply (proj1 (NoDup_alt _) (inv_key_names _ _ _ _ Hinv) i j
               (Attribute.name (Key.attribute k1))); unfold key_names.
      * change (List.map ?f ?l) with (f <$> l). by rewrite list_lookup_fmap, Ei.
      * change (List.map ?f ?l) with (f <$> l). by rewrite list_lookup_fmap, Ej, Hname.
    + intros es i j x1 x2 Hes Hij Hi Hj Hname.
      destruct (validate_throws_or_valid h t) as [|Hv]; [done|exfalso].
      destruct (Hvalid Hv) as (keys & indices & Hinv).
      rewrite (inv_indices_stored _ _ _ _ Hinv) in Hes. injection Hes as <-.
      rewrite list_lookup_fmap in Hi, Hj.
      destruct (indices !! i) as [x1'|] eqn:Ei; [|done].
      destruct (indices !! j) as [x2'|] eqn:Ej; [|done].
      cbn in Hi, Hj. simplify_eq.
      apply Hij.
      apply (proj1 (NoDup_alt _) (inv_index_names _ _ _ _ Hinv) i j (Index.name x1));
        unfold index_names.
      * change (List.map ?f ?l) with (f <$> l). by rewrite list_lookup_fmap, Ei.
      * change (List.map ?f ?l) with (f <$> l). by rewrite list_lookup_fmap, Ej, Hname.
    + intros keys indices Hinv. apply validate_Normal_invariants; eauto.
Qed.

Lemma index_field_present (xs : list Index.t) :
  is_Some (index_field xs) <-> exists i, i ∈ xs.
Proof.
  unfold index_field. destruct xs as [|x xs]; cbn.
  - split; [by intros [? ?]|]. intros [i Hi]. by apply not_elem_of_nil in Hi.
  - split; [|by eexists]. intros _. exists x. by left.
Qed.

Lemma index_field_Some (xs : list Index.t) (l : list IndexSchema) :
  index_field xs = Some l -> l = List.map toIndexSchema xs /\ l <> [].
Proof.
  unfold index_field. destruct xs as [|x xs]; cbn; [done|].
  intros [= <-]. split; [done|discriminate].
Qed.

Lemma elem_of_filter_type (f : Index.t -> bool) (ty : IndexType.t) (indices : list Index.t) :
  (forall i, f i = true <-> Index.type i = ty) ->
  (exists i, i ∈ List.filter f indices) <-> (exists i, i ∈ indices /\ Index.type i = ty).
Proof.
  intros Hf. split; intros [i Hi]; exists i.
  - apply list_elem_of_In, filter_In in Hi as [Hin Hi].
    split; [by apply list_elem_of_In|by apply Hf].
  - destruct Hi as [Hin Hi]. apply list_elem_of_In, filter_In.
    split; [by apply list_elem_of_In|by apply Hf].
Qed.

Lemma is_global_spec (i : Index.t) :
  is_global i = true <-> Index.type i = IndexType.GLOBAL_SECONDARY.
Proof. unfold is_global. by destruct (Index.type i). Qed.

Lemma is_local_spec (i : Index.t) :
  is_local i = true <-> Index.type i = IndexType.LOCAL_SECONDARY.
Proof. unfold is_local. by destruct (Index.type i). Qed.

(** C7. For a table that [validate] accepts, [toTableSchema] returns a schema
    whose [GlobalSecondaryIndexes] field is present exactly when the table has
    a global secondary index, and whose [LocalSecondaryIndexes] field is
    present exactly when it has a local one. A field that is present holds the
    projections of the indices of its type, and is never the empty array. *)
Theorem toTableSchema_index_fields (h : Store) (t : Table) :
  validate h t = Normal tt ->
  exists s indices,
    toTableSchema h t = Normal s /\
    arr_of h (_indices t) = Some (EIndex <$> indices) /\
    (is_Some (GlobalSecondaryIndexes s) <->
       exists i, i ∈ indices /\ Index.type i = IndexType.GLOBAL_SECONDARY) /\
    (is_Some (LocalSecondaryIndexes s) <->
       exists i, i ∈ indices /\ Index.type i = IndexType.LOCAL_SECONDARY) /\
    (forall l, GlobalSecondaryIndexes s = Some l ->
       l = List.map toIndexSchema (List.filter is_global indices) /\ l <> []) /\
    (forall l, LocalSecondaryIndexes s = Some l ->
       l = List.map toIndexSchema (List.filter is_local indices) /\ l <> []).
Proof.
  intros Hv. destruct (validate_Normal_checks h t Hv) as (keys & indices & Hk & Hi & _).
  unfold toTableSchema. rewrite Hv.
  eexists. exists indices. split; [reflexivity|]. split; [done|].
  unfold index_instances. rewrite Hi. cbn. rewrite mapM_as_Index_fmap. cbn.
  split; [|split; [|split]].
  - rewrite index_field_present. apply elem_of_filter_type, is_global_spec.
  - rewrite index_field_present. apply elem_of_filter_type, is_local_spec.
  - apply index_field_Some.
  - apply index_field_Some.
Qed.

(** C8, as the code has it. A table constructed with an empty key set is
    rejected by [validate]. The error is "Table name is invalid." (invariant 1)
    when the name is not a non-empty string, and otherwise "Table must have one
    hash key." (invariant 3): no check of [validate] asks for a non-empty key
    array. *)
Theorem validate_empty_key_set name keys indicies pt (h h' : Store) (t : Table) :
  empty_key_set keys h ->
  new name keys indicies pt h = (t, h') ->
  exists msg,
    validate h' t = Throw msg /\
    msg = (if name_invalid name then "Table name is invalid."
           else "Table must have one hash key.") /\
    invariant_named msg = Some (if name_invalid name then 1 else 3).
Proof.
  intros Hempty Hnew.
  destruct (new_keys_empty _ _ _ _ _ _ _ Hempty Hnew) as [Hname Hkeys].
  unfold validate. rewrite Hname, Hkeys.
  destruct (name_invalid name); cbn; eexists; repeat split.
Qed.

(** C10. The array handed out by the [keys] or the [indicies] getter is a
    copy: it holds the elements of the table's array, and whatever is done to
    it afterwards, the table's own arrays are as they were, so [validate],
    [toTableSchema] and both getters give what they gave before. *)
Theorem getters_return_fresh_copies (h h1 : Store) (t : Table) (l : loc) (xs : list Entry) :
  allocated h t ->
  keys t h = (Normal l, h1) \/ indicies t h = (Normal l, h1) ->
  contents (keys t h) = iterate h (_keys t) /\
  contents (indicies t h) = iterate h (_indices t) /\
  arr_of (mutate l xs h1) (_keys t) = arr_of h (_keys t) /\
  arr_of (mutate l xs h1) (_indices t) = arr_of h (_indices t) /\
  validate (mutate l xs h1) t = validate h t /\
  toTableSchema (mutate l xs h1) t = toTableSchema h t /\
  contents (keys t (mutate l xs h1)) = contents (keys t h) /\
  contents (indicies t (mutate l xs h1)) = contents (indicies t h).
Proof.
  intros [Hak Hai] Hget.
  assert (exists ys, h !! l = None /\ h1 = <[l := ys]> h) as (ys & Hl & ->).
  { destruct Hget as [H|H]; apply spread_Normal in H as (ys & _ & ? & ?); eauto. }
  pose proof (arr_of_mutate_fresh h l xs ys (_keys t) Hl Hak) as Hk.
  pose proof (arr_of_mutate_fresh h l xs ys (_indices t) Hl Hai) as Hi.
  unfold keys, indicies. rewrite !contents_spread.
  repeat split; try done.
  - by apply validate_frame.
  - by apply toTableSchema_frame.
  - by apply iterate_arr_of.
  - by apply iterate_arr_of.
Qed.

(** X13. The constructor keeps the array it is given and makes no copy of it
    (unlike the getters): what the caller does to that array afterwards is
    what the table holds. The [keys] getter then returns the changed
    elements, and a table that [validate] has accepted is rejected once the
    caller has emptied the array. *)
Theorem constructor_shares_callers_array name (l : loc) indicies pt
    (h h' : Store) (t : Table) (xs : list Entry) :
  new name (Given (ARef l)) indicies pt h = (t, h') ->
  _keys t = ARef l /\
  contents (keys t (mutate l xs h')) = Some xs /\
  (validate h' t = Normal tt ->
   validate (mutate l [] h') t = Throw "Table must have one hash key.").
Proof.
  intros Hnew.
  assert (_keys t = ARef l) as Hk.
  { unfold new in Hnew. cbn in Hnew.
    destruct (or_empty indicies h) as [ixs h2]. by injection Hnew as <- _. }
  split; [done|]. split.
  - unfold keys. rewrite contents_spread, Hk. cbn. unfold mutate.
    by rewrite lookup_insert_eq.
  - intros Hv.
    destruct (validate_Normal_checks h' t Hv) as (_ & _ & _ & _ & Hn & _).
    unfold validate. rewrite Hn, Hk. cbn. unfold mutate.
    by rewrite lookup_insert_eq.
Qed.

(** X16. A schema that [toTableSchema] returns has one attribute definition
    and one key schema element for each key of the table, in the order of
    the key array and for the keys only (the keys of the indices add none);
    there is at least one, and the table name is a non-empty string. *)
Theorem toTableSchema_key_fields (h : Store) (t : Table) (s : TableSchema) :
  toTableSchema h t = Normal s ->
  exists keys,
    arr_of h (_keys t) = Some (EKey <$> keys) /\
    AttributeDefinitions s = List.map (fun k => toAttributeSchema (Key.attribute k)) keys /\
    KeySchema s = List.map toKeySchema keys /\
    length (AttributeDefinitions s) = length (KeySchema s) /\
    1 <= length (KeySchema s) /\
    ProvisionedThroughput s = toProvisionedThroughputSchema (_provisionedThroughput t) /\
    exists n, TableName s = NStr n /\ n <> "".
Proof.
  unfold toTableSchema. destruct (validate h t) as [[]|m] eqn:Hv; [|done].
  intros [= <-]. cbn.
  destruct (validate_Normal_checks h t Hv)
    as (keys & indices & Hk & _ & Hn & Hh & _).
  exists keys. unfold key_instances. rewrite Hk. cbn. rewrite mapM_as_Key_fmap. cbn.
  split; [done|]. split; [done|]. split; [done|].
  split; [by rewrite !length_map|]. split.
  - rewrite length_map. destruct keys; [cbn in Hh; lia|cbn; lia].
  - split; [done|]. by apply name_invalid_false.
Qed.

End Methods.

Arguments TableName {_ _ _ _} _.
Arguments AttributeDefinitions {_ _ _ _} _.
Arguments KeySchema {_ _ _ _} _.
Arguments ProvisionedThroughput {_ _ _ _} _.
Arguments GlobalSecondaryIndexes {_ _ _ _} _.
Arguments LocalSecondaryIndexes {_ _ _ _} _.

(** *** [validate] with the [array.unique] of the common library

    [validate] writes [if (!array.unique(names)) throw ...], as if
    [array.unique] answered whether the names are unique. The function of the
    common library (which is outside this unit) answers no question: it
    returns an array, holding the distinct items of the array it is given.
    An array is an object, and [ToBoolean] of an object is [true], also of
    the empty array: [!array.unique(names)] is [false] on every array. *)

Definition ToBoolean_array {A} (a : list A) : bool := true.

(** The distinct items of an array, each where it first appears. *)
Fixpoint distinct (seen a : list string) : list string :=
  match a with
  | [] => []
  | item :: rest =>
      if existsb (String.eqb item) seen then distinct seen rest
      else item :: distinct (item :: seen) rest
  end.

Section UniqueReturnsAnArray.

(** [array.unique]: whatever array it returns. *)
Variable unique : list string -> list string.

Variable Key_validate : Key.t -> Completion unit.
Variable Index_validate : Index.t -> Completion unit.
Variable ProvisionedThroughput_validate : ProvisionedThroughput.t -> Completion unit.

(** [Table.validate] as it runs: the condition of each check of names is the
    truth value of the array that [array.unique] returns. *)
Definition validate_as_run : Store -> Table -> Completion unit :=
  validate (fun names => ToBoolean_array (unique names))
    Key_validate Index_validate ProvisionedThroughput_validate.

(** C6, where the code departs from it. The two checks of names never throw:
    a table with a valid name, an array of keys with exactly one HASH key, an
    array of indices, and keys, indices and throughput that are valid one by
    one is accepted by [validate], whether or not two of its keys have the
    same attribute name and whether or not two of its indices have the same
    name. *)
Theorem validate_accepts_duplicate_names (h : Store) (t : Table)
    (keys : list Key.t) (indices : list Index.t) :
  name_invalid (_name t) = false ->
  arr_of h (_keys t) = Some (EKey <$> keys) ->
  arr_of h (_indices t) = Some (EIndex <$> indices) ->
  length (List.filter is_hash keys) = 1 ->
  Forall (fun k => Key_validate k = Normal tt) keys ->
  Forall (fun i => Index_validate i = Normal tt) indices ->
  ProvisionedThroughput_validate (_provisionedThroughput t) = Normal tt ->
  validate_as_run h t = Normal tt.
Proof.
  intros Hn Hk Hi Hh Hkv Hiv Hpt.
  unfold validate_as_run, validate.
  rewrite Hn, Hk, mapM_as_Key_fmap, Hh. cbn.
  rewrite Hi, mapM_as_Index_fmap. cbn.
  apply forEach_Normal in Hkv, Hiv. by rewrite Hkv, Hiv.
Qed.

End UniqueReturnsAnArray.

(** *** The methods run on the example table *)

(** [validate] and [toTableSchema] with the collaborators of [Model]. *)
Definition validate_model : Store -> Table -> Completion unit :=
  validate Model.unique Model.Key_validate Model.Index_validate
    Model.ProvisionedThroughput_validate.

Definition toTableSchema_model :=
  toTableSchema Model.unique Model.Key_validate Model.Index_validate
    Model.ProvisionedThroughput_validate _ _ _ _
    Model.toAttributeSchema Model.toKeySchema Model.toIndexSchema
    Model.toProvisionedThroughputSchema.

(** [c] throws an error that names invariant [n] of the specification. *)
Definition names_invariant (c : Completion unit) (n : nat) : Prop :=
  exists msg, c = Throw msg /\ invariant_named msg = Some n.

Lemma unique_NoDup (names : list string) : Model.unique names = true <-> NoDup names.
Proof. apply bool_decide_eq_true. Qed.

Lemma orders_allocated : allocated Model.store Model.orders.
Proof. split; intros l [= <-]; by eexists. Qed.

(** The scenario of the specification: two attribute definitions, two key
    schema elements, one global secondary index, no local one. *)
Example orders_schema :
  toTableSchema_model Model.store Model.orders =
  Normal {| TableName := NStr "orders";
            AttributeDefinitions := [("id", "S"); ("ts", "N")];
            KeySchema := [("id", KeyType.HASH); ("ts", KeyType.RANGE)];
            ProvisionedThroughput := (5, 5);
            GlobalSecondaryIndexes := Some [("by-ts", [("ts", KeyType.RANGE)])];
            LocalSecondaryIndexes := None |}.
Proof. vm_compute. reflexivity. Qed.

Lemma validate_rejects_and_accepts_witness :
  validate_model Model.store Model.orders = Normal tt /\
  throws (validate_model Model.two_hash_store Model.orders).
Proof.
  split.
  - apply (validate_rejects_and_accepts Model.unique Model.Key_validate
             Model.Index_validate Model.ProvisionedThroughput_validate
             Model.store Model.orders)
      with (keys := [Model.id_key; Model.ts_key]) (indices := [Model.by_ts]);
      [exact unique_NoDup|].
    split; try reflexivity.
    + by eexists.
    + discriminate.
    + apply unique_NoDup. reflexivity.
    + apply unique_NoDup. reflexivity.
    + repeat constructor.
    + repeat constructor.
  - apply (validate_rejects_and_accepts Model.unique Model.Key_validate
             Model.Index_validate Model.ProvisionedThroughput_validate
             Model.two_hash_store Model.orders)
      with (es := [EKey Model.id_key; EKey Model.id_key]); reflexivity.
Defined.

(** Two tables that break the invariants on names: one whose keys are both
    on an attribute named [id], one with two indices named [by-ts]. *)
Definition id_range_key : Key.t :=
  {| Key.attribute := Key.attribute Model.id_key; Key.keyType := KeyType.RANGE |}.

Definition duplicate_key_store : Store :=
  <[2%positive := []]> (<[1%positive := [EKey Model.id_key; EKey id_range_key]]> ∅).

Definition duplicate_index_store : Store :=
  <[2%positive := [EIndex Model.by_ts; EIndex Model.by_ts]]>
    (<[1%positive := [EKey Model.id_key; EKey Model.ts_key]]> ∅).

Lemma validate_accepts_duplicate_names_witness :
  key_names [Model.id_key; id_range_key] = ["id"; "id"] /\
  distinct [] ["id"; "id"] = ["id"] /\
  validate_as_run (distinct []) Model.Key_validate Model.Index_validate
    Model.ProvisionedThroughput_validate duplicate_key_store Model.orders = Normal tt /\
  index_names [Model.by_ts; Model.by_ts] = ["by-ts"; "by-ts"] /\
  validate_as_run (distinct []) Model.Key_validate Model.Index_validate
    Model.ProvisionedThroughput_validate duplicate_index_store Model.orders = Normal tt.
Proof.
  split; [reflexivity|]. split; [reflexivity|]. split; [|split; [reflexivity|]].
  - apply (validate_accepts_duplicate_names (distinct []) Model.Key_validate
             Model.Index_validate Model.ProvisionedThroughput_validate
             duplicate_key_store Model.orders [Model.id_key; id_range_key] []);
      try reflexivity; repeat constructor.
  - apply (validate_accepts_duplicate_names (distinct []) Model.Key_validate
             Model.Index_validate Model.ProvisionedThroughput_validate
             duplicate_index_store Model.orders [Model.id_key; Model.ts_key]
             [Model.by_ts; Model.by_ts]);
      try reflexivity; repeat constructor.
Defined.

(** Two keys named [id]: rejected when [array.unique] is the test of
    [Model]. *)
Example duplicate_key_names_rejected :
  validate_model
    (<[2%positive := []]>
       (<[1%positive := [EKey Model.id_key;
                         EKey {| Key.attribute := Key.attribute Model.id_key;
                                 Key.keyType := KeyType.RANGE |}]]> ∅))
    Model.orders =
  Throw "Table key names must be unique (only one key with a given name).".
Proof. vm_compute. reflexivity. Qed.

(** The two name checks rest on what [array.unique] answers: were its answer
    truthy on every array (as the array of the distinct names would be), the
    same table would pass. *)
Example duplicate_key_names_with_truthy_unique :
  validate (fun _ => true) Model.Key_validate Model.Index_validate
    Model.ProvisionedThroughput_validate
    (<[2%positive := []]>
       (<[1%positive := [EKey Model.id_key;
                         EKey {| Key.attribute := Key.attribute Model.id_key;
                                 Key.keyType := KeyType.RANGE |}]]> ∅))
    Model.orders =
  Normal tt.
Proof. vm_compute. reflexivity. Qed.

Lemma toTableSchema_index_fields_witness :
  exists s, toTableSchema_model Model.store Model.orders = Normal s /\
            is_Some (GlobalSecondaryIndexes s).
Proof.
  destruct (toTableSchema_index_fields Model.unique Model.Key_validate
              Model.Index_validate Model.ProvisionedThroughput_validate
              _ _ _ _ Model.toAttributeSchema Model.toKeySchema Model.toIndexSchema
              Model.toProvisionedThroughputSchema Model.store Model.orders)
    as (s & indices & Hs & Hi & Hg & _).
  - vm_compute. reflexivity.
  - exists s. split; [exact Hs|]. apply Hg.
    change (Some [EIndex Model.by_ts] = Some (EIndex <$> indices)) in Hi.
    destruct indices as [|i [|? ?]]; cbn in Hi; simplify_eq.
    exists Model.by_ts. split; [by left|reflexivity].
Defined.

(** Against C8 as the specification has it: the table [new Table('orders')]
    has an empty key set, and [validate] rejects it with the error of
    invariant 3, not of invariant 2. *)
Lemma empty_key_set_names_invariant_3 :
  let '(t, h) := new (NStr "orders") Falsy Falsy Model.throughput ∅ in
  arr_of h (_keys t) = Some [] /\
  validate_model h t = Throw "Table must have one hash key." /\
  names_invariant (validate_model h t) 3 /\
  ~ names_invariant (validate_model h t) 2.
Proof.
  vm_compute. split; [reflexivity|]. split; [reflexivity|]. split.
  - eexists. split; reflexivity.
  - intros (msg & [= <-] & H). discriminate.
Qed.

Lemma validate_empty_key_set_witness :
  exists msg,
    validate_model (new (NStr "orders") Falsy Falsy Model.throughput ∅).2
                   (new (NStr "orders") Falsy Falsy Model.throughput ∅).1 = Throw msg /\
    msg = "Table must have one hash key." /\
    invariant_named msg = Some 3.
Proof.
  apply (validate_empty_key_set Model.unique Model.Key_validate
           Model.Index_validate Model.ProvisionedThroughput_validate
           (NStr "orders") Falsy Falsy Model.throughput ∅ _ _).
  - by left.
  - reflexivity.
Defined.

Lemma getters_return_fresh_copies_witness :
  match keys Model.orders Model.store with
  | (Normal l, h1) =>
      validate_model (mutate l [EOther "pushed by the caller"] h1) Model.orders = Normal tt
  | (Throw _, _) => False
  end.
Proof.
  destruct (keys Model.orders Model.store) as [[l|m] h1] eqn:E.
  - destruct (getters_return_fresh_copies Model.unique Model.Key_validate
                Model.Index_validate Model.ProvisionedThroughput_validate
                _ _ _ _ Model.toAttributeSchema Model.toKeySchema Model.toIndexSchema
                Model.toProvisionedThroughputSchema
                Model.store h1 Model.orders l [EOther "pushed by the caller"]
                orders_allocated (or_introl E))
      as (_ & _ & _ & _ & Hv & _).
    unfold validate_model. rewrite Hv. vm_compute. reflexivity.
  - vm_compute in E. discriminate.
Defined.

Lemma constructor_shares_callers_array_witness :
  validate_model Model.store Model.orders = Normal tt /\
  contents (keys Model.orders (mutate 1%positive [EOther "put in by the caller"] Model.store)) =
    Some [EOther "put in by the caller"] /\
  validate_model (mutate 1%positive [] Model.store) Model.orders =
    Throw "Table must have one hash key.".
Proof.
  split; [reflexivity|].
  destruct (constructor_shares_callers_array Model.unique Model.Key_validate
              Model.Index_validate Model.ProvisionedThroughput_validate
              (NStr "orders") 1%positive (Given (ARef 2%positive)) Model.throughput
              Model.store Model.store Model.orders [EOther "put in by the caller"]
              eq_refl) as (_ & Hg & Hv).
  split; [exact Hg|]. apply Hv. reflexivity.
Defined.

Lemma toTableSchema_key_fields_witness :
  exists s,
    toTableSchema_model Model.store Model.orders = Normal s /\
    AttributeDefinitions s = [("id", "S"); ("ts", "N")] /\
    KeySchema s = [("id", KeyType.HASH); ("ts", KeyType.RANGE)].
Proof.
  destruct (toTableSchema_model Model.store Model.orders) as [s|m] eqn:E;
    [|vm_compute in E; discriminate E].
  exists s. split; [reflexivity|].
  destruct (toTableSchema_key_fields Model.unique Model.Key_validate
              Model.Index_validate Model.ProvisionedThroughput_validate
              _ _ _ _ Model.toAttributeSchema Model.toKeySchema Model.toIndexSchema
              Model.toProvisionedThroughputSchema
              Model.store Model.orders s E) as (keys & Hk & Ha & Hs & _).
  assert (keys = [Model.id_key; Model.ts_key]) as ->.
  { change (Some [EKey Model.id_key; EKey Model.ts_key] = Some (EKey <$> keys)) in Hk.
    destruct keys as [|k1 [|k2 [|k3 keys]]]; cbn in Hk; by simplify_eq. }
  by split.
Defined.

End Schema.

(** ** The scan reader

    [DynamoScanReader] is a [Stream.Readable]. The stream calls [_read] when
    its consumer wants data; [_read] calls [scanChunk] of the provider, whose
    promise settles in a later turn of the event loop; the handlers hand the
    page to the stream with [push], whose result tells whether the consumer
    takes more. The model is a transition system: a world holds the fields of
    the reader and what it has done to its surroundings (the calls of
    [scanChunk], the promises not yet settled, the chunks pushed, the
    callbacks queued with [process.nextTick], the error events emitted), and
    an action is one turn: a call of [_read], the settling of a promise, a
    queued callback. *)

Module ScanReader.

Section Reader.

(** A record of the table, the key a page ends at, a provider error. *)
Context {Item StartKey Error : Type}.

(** What [scanChunk] resolves to: [{ results, startKey }]. *)
Record Results := {
  results : list Item;
  startKey : option StartKey
}.

Inductive Settlement :=
| Resolved (r : Results)
| Rejected (e : Error).

(** The fields the constructor sets, [_scan] and [_provider] apart. *)
Record Reader := {
  _previous : option Results;
  _scanned : nat;
  _reading : bool;
  _error : bool
}.

(** The argument of [push]: an array of records, or [null]. *)
Inductive Chunk :=
| Batch (items : list Item)
| Null.

Definition is_Null (c : Chunk) : bool :=
  match c with Null => true | Batch _ => false end.

Record World := {
  reader : Reader;
  calls : list (option Results);
  pending : list (nat * option Results);
  pushed : list Chunk;
  ticks : list Error;
  errors : list Error
}.

(** The surroundings. [scanChunk n previous] is how the provider settles its
    call number [n], made with [previous] ([None]: the promise stays pending).
    [push_result n] is what the stream answers to its push number [n]. *)
Variable scanChunk : nat -> option Results -> option Settlement.
Variable push_result : nat -> bool.

Definition with_reader (f : Reader -> Reader) (w : World) : World :=
  {| reader := f (reader w); calls := calls w; pending := pending w;
     pushed := pushed w; ticks := ticks w; errors := errors w |}.

Definition set_previous (p : option Results) (r : Reader) : Reader :=
  {| _previous := p; _scanned := _scanned r; _reading := _reading r; _error := _error r |}.

Definition set_scanned (n : nat) (r : Reader) : Reader :=
  {| _previous := _previous r; _scanned := n; _reading := _reading r; _error := _error r |}.

Definition set_reading (b : bool) (r : Reader) : Reader :=
  {| _previous := _previous r; _scanned := _scanned r; _reading := b; _error := _error r |}.

Definition set_error (b : bool) (r : Reader) : Reader :=
  {| _previous := _previous r; _scanned := _scanned r; _reading := _reading r; _error := b |}.

(** [new DynamoScanReader(scan, provider)] *)
Definition initial : World :=
  {| reader := {| _previous := None; _scanned := 0; _reading := false; _error := false |};
     calls := []; pending := []; pushed := []; ticks := []; errors := [] |}.

(** [this.push(c)] *)
Definition push (c : Chunk) (w : World) : bool * World :=
  (push_result (length (pushed w)),
   {| reader := reader w; calls := calls w; pending := pending w;
      pushed := pushed w ++ [c]; ticks := ticks w; errors := errors w |}).

(** [this._provider.scanChunk(this._scan, this._previous)]: the call is made
    and its promise is outstanding. *)
Definition call_scanChunk (w : World) : World :=
  {| reader := reader w;
     calls := calls w ++ [_previous (reader w)];
     pending := pending w ++ [(length (calls w), _previous (reader w))];
     pushed := pushed w; ticks := ticks w; errors := errors w |}.

(** [process.nextTick(() => this.emit('error', e))] *)
Definition nextTick (e : Error) (w : World) : World :=
  {| reader := reader w; calls := calls w; pending := pending w;
     pushed := pushed w; ticks := ticks w ++ [e]; errors := errors w |}.

(** [this._previous !== null && !this._previous.startKey] *)
Definition no_more_results (r : Reader) : bool :=
  match _previous r with
  | Some p => match startKey p with Some _ => false | None => true end
  | None => false
  end.

Definition scanChunkRecursive (w : World) : World :=
  if no_more_results (reader w)
  then snd (push Null (with_reader (set_reading false) w))
  else call_scanChunk w.

(** [if (results.results.length !== 0) { ... }]: the page is counted and
    pushed, and the answer of the stream is kept in [_reading]. *)
Definition deliver (r : Results) (w : World) : World :=
  if negb (length (results r) =? 0)%nat then
    let w' := with_reader (set_scanned (_scanned (reader w) + length (results r))) w in
    let (more, w'') := push (Batch (results r)) w' in
    with_reader (set_reading more) w''
  else w.

(** The handler given to [then]. *)
Definition on_resolved (r : Results) (w : World) : World :=
  let w1 := deliver r (with_reader (set_previous (Some r)) w) in
  if _reading (reader w1) then scanChunkRecursive w1 else w1.

(** The handler given to [catch]. *)
Definition on_rejected (e : Error) (w : World) : World :=
  let w1 := with_reader (set_reading false) w in
  let w2 := with_reader (set_error true) w1 in
  let w3 := snd (push Null w2) in
  nextTick e w3.

(** [_read(size)] *)
Definition _read (w : World) : World :=
  if _reading (reader w) then w
  else if _error (reader w) then w
  else scanChunkRecursive (with_reader (set_reading true) w).

(** The oldest outstanding promise settles and its handler runs. *)
Definition settle (w : World) : World :=
  match pending w with
  | [] => w
  | (n, previous) :: rest =>
      let w' := {| reader := reader w; calls := calls w; pending := rest;
                   pushed := pushed w; ticks := ticks w; errors := errors w |} in
      match scanChunk n previous with
      | None => w
      | Some (Resolved r) => on_resolved r w'
      | Some (Rejected e) => on_rejected e w'
      end
  end.

(** The oldest queued callback runs: the error event is emitted. *)
Definition tick (w : World) : World :=
  match ticks w with
  | [] => w
  | e :: rest =>
      {| reader := reader w; calls := calls w; pending := pending w;
         pushed := pushed w; ticks := rest; errors := errors w ++ [e] |}
  end.

Inductive Action := Pull | Settle | Tick.

#[global] Instance Action_eq_dec : EqDecision Action.
Proof. solve_decision. Defined.

Definition step (w : World) (a : Action) : World :=
  match a with
  | Pull => _read w
  | Settle => settle w
  | Tick => tick w
  end.

Definition run (acts : list Action) (w : World) : World := fold_left step acts w.

Definition reachable (w : World) : Prop := exists acts, w = run acts initial.

(** The states of the specification, read off a world. *)
Inductive State := Idle | Reading | Paused | Exhausted | Errored.

(** End-of-sequence has been signalled. *)
Definition ended (w : World) : bool := existsb is_Null (pushed w).

Definition state_of (w : World) : State :=
  if _error (reader w) then Errored
  else if _reading (reader w) then Reading
  else match _previous (reader w) with
       | None => Idle
       | Some _ => if no_more_results (reader w) && ended w then Exhausted else Paused
       end.

(** A consumer that asks for more whenever the reader is idle or paused, in
    an event loop that first settles the outstanding call and runs the queued
    callbacks. [None]: nothing is left to do. *)
Definition next_action (w : World) : option Action :=
  match pending w, ticks w with
  | _ :: _, _ => Some Settle
  | [], _ :: _ => Some Tick
  | [], [] =>
      match state_of w with
      | Idle | Paused => Some Pull
      | Reading | Exhausted | Errored => None
      end
  end.

Fixpoint drive (fuel : nat) (w : World) : World :=
  match fuel with
  | 0 => w
  | S fuel' =>
      match next_action w with
      | Some a => drive fuel' (step w a)
      | None => w
      end
  end.

(** *** What holds in every world the reader can be in *)

Record invariant (w : World) : Prop := {
  inv_pending : length (pending w) <= 1;
  inv_reading : _reading (reader w) = true <-> pending w <> [];
  inv_error :
    if _error (reader w)
    then pending w = [] /\ exists e, errors w ++ ticks w = [e]
    else errors w = [] /\ ticks w = [];
  inv_ended :
    ended w = true ->
    _reading (reader w) = false /\
    (_error (reader w) = true \/ no_more_results (reader w) = true)
}.

(** The worlds in which [scanChunkRecursive] is entered: the reader is
    reading and nothing is outstanding. *)
Record in_loop (w : World) : Prop := {
  loop_pending : pending w = [];
  loop_reading : _reading (reader w) = true;
  loop_error : _error (reader w) = false;
  loop_errors : errors w = [];
  loop_ticks : ticks w = [];
  loop_ended : ended w = true -> no_more_results (reader w) = true
}.

Ltac destruct_world w :=
  let prev := fresh "prev" in
  let scanned := fresh "scanned" in
  let reading := fresh "reading" in
  let error := fresh "error" in
  destruct w as [[prev scanned reading error] ? ? ? ? ?]; cbn in *.

Lemma ended_app (c : Chunk) (l : list Chunk) :
  existsb is_Null (l ++ [c]) = existsb is_Null l || is_Null c.
Proof. rewrite existsb_app. cbn. by rewrite orb_false_r. Qed.

Lemma invariant_initial : invariant initial.
Proof. split; cbn; try done. lia. Qed.

Lemma scanChunkRecursive_invariant (w : World) :
  in_loop w -> invariant (scanChunkRecursive w).
Proof.
  intros [Hp Hr He Hes Ht Hend]. unfold scanChunkRecursive.
  destruct (no_more_results (reader w)) eqn:Hno.
  - destruct_world w. subst. split; cbn; try done.
    + lia.
    + intros _. split; [done|by right].
  - destruct_world w. subst. split; cbn; try done.
    intros H. specialize (Hend H). congruence.
Qed.

Lemma _read_invariant (w : World) : invariant w -> invariant (_read w).
Proof.
  intros Hinv. unfold _read.
  destruct (_reading (reader w)) eqn:Hr; [done|].
  destruct (_error (reader w)) eqn:He; [done|].
  apply scanChunkRecursive_invariant.
  destruct Hinv as [Hp Hrd Herr Hend]. rewrite He in Herr. destruct Herr as [Hes Ht].
  assert (pending w = []) as Hnil.
  { destruct (pending w); [done|]. destruct Hrd as [_ H].
    rewrite Hr in H. by discriminate H. }
  destruct_world w. subst. split; cbn; try done.
  intros H. destruct (Hend H) as [_ [?|?]]; done.
Qed.

Lemma on_resolved_invariant (r : Results) (w : World) :
  in_loop w -> ended w = false -> invariant (on_resolved r w).
Proof.
  intros [Hp Hr He Hes Ht _] Hend. unfold on_resolved, deliver.
  destruct (negb (length (results r) =? 0)%nat) eqn:Hlen.
  - cbn -[scanChunkRecursive].
    destruct (push_result (length (pushed w))) eqn:Hmore.
    + apply scanChunkRecursive_invariant.
      destruct_world w. subst. split; cbn; try done.
      unfold ended; cbn. rewrite ended_app. cbn.
      rewrite orb_false_r. unfold ended in Hend. cbn in Hend. congruence.
    + destruct_world w. subst. split; cbn; try done.
      * lia.
      * unfold ended; cbn. rewrite ended_app. cbn.
        rewrite orb_false_r. unfold ended in Hend. cbn in Hend. congruence.
  - cbn -[scanChunkRecursive]. rewrite Hr.
    apply scanChunkRecursive_invariant.
    destruct_world w. subst. split; cbn; try done.
    unfold ended in *. cbn in *. congruence.
Qed.

Lemma on_rejected_invariant (e : Error) (w : World) :
  in_loop w -> invariant (on_rejected e w).
Proof.
  intros [Hp Hr He Hes Ht _]. destruct_world w. subst. split; cbn; try done.
  - lia.
  - split; [done|]. by exists e.
  - intros _. split; [done|by left].
Qed.

Lemma settle_invariant (w : World) : invariant w -> invariant (settle w).
Proof.
  intros Hinv. unfold settle.
  destruct (pending w) as [|[n previous] rest] eqn:Hp; [done|].
  destruct (scanChunk n previous) as [[r|e]|] eqn:Hs; [| |done].
  - destruct Hinv as [Hlen Hrd Herr Hend].
    assert (_reading (reader w) = true) as Hr by (apply Hrd; by rewrite Hp).
    assert (_error (reader w) = false) as He.
    { destruct (_error (reader w)); [|done]. destruct Herr as [Hnil _]. congruence. }
    rewrite He in Herr. destruct Herr as [Hes Ht].
    assert (ended w = false) as Hfalse.
    { destruct (ended w); [|done]. destruct (Hend eq_refl). congruence. }
    rewrite Hp in Hlen. destruct rest; [|cbn in Hlen; lia].
    apply on_resolved_invariant; [|done].
    split; cbn; try done. intros H. unfold ended in *; cbn in *. congruence.
  - destruct Hinv as [Hlen Hrd Herr Hend].
    assert (_reading (reader w) = true) as Hr by (apply Hrd; by rewrite Hp).
    assert (_error (reader w) = false) as He.
    { destruct (_error (reader w)); [|done]. destruct Herr as [Hnil _]. congruence. }
    rewrite He in Herr. destruct Herr as [Hes Ht].
    rewrite Hp in Hlen. destruct rest; [|cbn in Hlen; lia].
    apply on_rejected_invariant. split; cbn; try done.
    intros H. destruct (Hend H). congruence.
Qed.

Lemma tick_invariant (w : World) : invariant w -> invariant (tick w).
Proof.
  intros Hinv. unfold tick. destruct (ticks w) as [|e rest] eqn:Ht; [done|].
  destruct Hinv as [Hlen Hrd Herr Hend]. split; cbn; try done.
  destruct (_error (reader w)).
  - destruct Herr as [Hnil [e0 He0]]. split; [done|]. exists e0.
    rewrite <- app_assoc. cbn. by rewrite <- Ht.
  - destruct Herr as [_ ?]. congruence.
Qed.

Lemma step_invariant (w : World) (a : Action) : invariant w -> invariant (step w a).
Proof.
  destruct a; cbn; [apply _read_invariant|apply settle_invariant|apply tick_invariant].
Qed.

Lemma run_invariant (acts : list Action) (w : World) :
  invariant w -> invariant (run acts w).
Proof.
  revert w. induction acts as [|a acts IH]; intros w Hinv; [done|].
  cbn. apply IH. by apply step_invariant.
Qed.

Lemma reachable_invariant (w : World) : reachable w -> invariant w.
Proof. intros [acts ->]. apply run_invariant, invariant_initial. Qed.

(** No action pushes an empty batch. *)
Definition batches_nonempty (w : World) : Prop :=
  Forall (fun c => c <> Batch []) (pushed w).

Lemma scanChunkRecursive_batches (w : World) :
  batches_nonempty w -> batches_nonempty (scanChunkRecursive w).
Proof.
  unfold batches_nonempty, scanChunkRecursive. intros H.
  destruct (no_more_results (reader w)); cbn; [|done].
  apply Forall_app. split; [done|]. by repeat constructor.
Qed.

Lemma deliver_batches (r : Results) (w : World) :
  batches_nonempty w -> batches_nonempty (deliver r w).
Proof.
  unfold batches_nonempty, deliver. intros H.
  destruct (results r) as [|x xs]; cbn; [done|].
  apply Forall_app. split; [done|]. by repeat constructor.
Qed.

Lemma step_batches (w : World) (a : Action) :
  batches_nonempty w -> batches_nonempty (step w a).
Proof.
  intros H. destruct a; cbn.
  - unfold _read. destruct (_reading (reader w)); [done|].
    destruct (_error (reader w)); [done|]. by apply scanChunkRecursive_batches.
  - unfold settle. destruct (pending w) as [|[n previous] rest]; [done|].
    destruct (scanChunk n previous) as [[r|e]|]; [| |done].
    + unfold on_resolved. cbv zeta.
      destruct (_reading _);
        [apply scanChunkRecursive_batches|]; by apply deliver_batches.
    + unfold on_rejected, batches_nonempty. cbn.
      apply Forall_app. split; [done|]. by repeat constructor.
  - unfold tick. by destruct (ticks w).
Qed.

Lemma reachable_batches (w : World) : reachable w -> batches_nonempty w.
Proof.
  intros [acts ->]. assert (batches_nonempty initial) as H by constructor.
  revert H. generalize initial. induction acts as [|a acts IH]; intros w H; [done|].
  apply IH. by apply step_batches.
Qed.

Lemma drive_S (fuel : nat) (w : World) :
  drive (S fuel) w =
  match next_action w with
  | Some a => drive fuel (step w a)
  | None => w
  end.
Proof. reflexivity. Qed.

Lemma drive_done (fuel : nat) (w : World) : next_action w = None -> drive fuel w = w.
Proof. intros H. destruct fuel; cbn; [done|by rewrite H]. Qed.

(** *** The claims about the reader *)

(** C2. The provider answers the first call with five records and a start
    key, the second with no record and a start key, the third with three
    records and no start key. Whatever the stream answers to the pushes, a
    consumer that keeps asking gets exactly the chunks: the five records, the
    three records, [null]. No empty batch is pushed; [null] is pushed once;
    the second page has moved the cursor (the third call is made with it) and
    no chunk stands for it; the reader ends exhausted, with nothing left to
    do. *)
Theorem three_pages_two_batches
    (i1 i2 i3 i4 i5 j1 j2 j3 : Item) (k1 k2 : StartKey) (fuel : nat) :
  let p1 := {| results := [i1; i2; i3; i4; i5]; startKey := Some k1 |} in
  let p2 := {| results := []; startKey := Some k2 |} in
  let p3 := {| results := [j1; j2; j3]; startKey := None |} in
  scanChunk 0 None = Some (Resolved p1) ->
  scanChunk 1 (Some p1) = Some (Resolved p2) ->
  scanChunk 2 (Some p2) = Some (Resolved p3) ->
  let w := drive (6 + fuel) initial in
  pushed w = [Batch [i1; i2; i3; i4; i5]; Batch [j1; j2; j3]; Null] /\
  calls w = [None; Some p1; Some p2] /\
  reader w = {| _previous := Some p3; _scanned := 8; _reading := false; _error := false |} /\
  state_of w = Exhausted /\
  pending w = [] /\ ticks w = [] /\ errors w = [] /\
  next_action w = None.
Proof.
  intros p1 p2 p3 H0 H1 H2. subst p1 p2 p3.
  assert (drive (6 + fuel) initial =
    {| reader := {| _previous := Some {| results := [j1; j2; j3]; startKey := None |};
                    _scanned := 8; _reading := false; _error := false |};
       calls := [None; Some {| results := [i1; i2; i3; i4; i5]; startKey := Some k1 |};
                 Some {| results := []; startKey := Some k2 |}];
       pending := [];
       pushed := [Batch [i1; i2; i3; i4; i5]; Batch [j1; j2; j3]; Null];
       ticks := []; errors := [] |}) as ->.
  { change (6 + fuel) with (S (S (S (S (S (S fuel)))))).
    destruct (push_result 0) eqn:E0; destruct (push_result 1) eqn:E1;
      repeat (rewrite ?drive_S; cbv -[drive]; rewrite ?H0, ?H1, ?H2, ?E0, ?E1);
      by rewrite ?drive_done. }
  cbn. repeat split.
Qed.

(** In a world where the reader has failed, [_read] and the settling of
    promises do nothing; a queued callback may still run. *)
Lemma errored_step (w : World) (a : Action) :
  invariant w -> _error (reader w) = true ->
  a <> Tick \/ ticks w = [] -> step w a = w.
Proof.
  intros [_ _ Herr _] He Ha. rewrite He in Herr. destruct Herr as [Hnil _].
  destruct a; cbn.
  - unfold _read. rewrite He. by destruct (_reading (reader w)).
  - unfold settle. by rewrite Hnil.
  - destruct Ha as [?|Ht]; [done|]. unfold tick. by rewrite Ht.
Qed.

Lemma errored_tick (w : World) :
  _error (reader (tick w)) = _error (reader w) /\
  reader (tick w) = reader w /\ calls (tick w) = calls w /\
  pushed (tick w) = pushed w /\ pending (tick w) = pending w /\
  errors (tick w) ++ ticks (tick w) = errors w ++ ticks w.
Proof.
  unfold tick. destruct (ticks w) as [|e rest] eqn:Ht; cbn.
  - by rewrite Ht.
  - by rewrite <- app_assoc.
Qed.

Lemma run_cons (a : Action) (acts : list Action) (w : World) :
  run (a :: acts) w = run acts (step w a).
Proof. reflexivity. Qed.

Lemma errored_run (acts : list Action) (w : World) :
  invariant w -> _error (reader w) = true ->
  reader (run acts w) = reader w /\ calls (run acts w) = calls w /\
  pushed (run acts w) = pushed w /\ pending (run acts w) = pending w /\
  errors (run acts w) ++ ticks (run acts w) = errors w ++ ticks w.
Proof.
  revert w. induction acts as [|a acts IH]; intros w Hinv He; [done|].
  rewrite run_cons. destruct (decide (a = Tick)) as [->|Ha].
  - change (step w Tick) with (tick w).
    destruct (errored_tick w) as (He' & Hr & Hc & Hp & Hpd & Hd).
    destruct (IH (tick w)) as (Hr' & Hc' & Hp' & Hpd' & Hd').
    + by apply tick_invariant.
    + by rewrite He'.
    + by rewrite Hr', Hc', Hp', Hpd', Hd'.
  - rewrite errored_step by auto. by apply IH.
Qed.

Lemma errored_run_quiet (acts : list Action) (w : World) :
  invariant w -> _error (reader w) = true -> ticks w = [] -> run acts w = w.
Proof.
  intros Hinv He Ht. induction acts as [|a acts IH]; [done|].
  rewrite run_cons. by rewrite errored_step by auto.
Qed.

(** The callback queued by the failure emits the error at the first [Tick],
    and nothing is emitted after it. *)
Lemma errored_run_emits (acts : list Action) (w : World) (e : Error) :
  invariant w -> _error (reader w) = true ->
  errors w = [] -> ticks w = [e] ->
  Tick ∈ acts -> errors (run acts w) = [e] /\ ticks (run acts w) = [].
Proof.
  revert w. induction acts as [|a acts IH]; intros w Hinv He Hes Ht Hin.
  - by apply not_elem_of_nil in Hin.
  - rewrite run_cons. destruct (decide (a = Tick)) as [->|Ha].
    + change (step w Tick) with (tick w).
      assert (errors (tick w) = [e] /\ ticks (tick w) = []) as [Hes' Ht'].
      { unfold tick. rewrite Ht. cbn. by rewrite Hes. }
      rewrite errored_run_quiet; [done|by apply tick_invariant| |done].
      by rewrite (proj1 (errored_tick w)).
    + rewrite errored_step by auto. apply IH; try done.
      apply elem_of_cons in Hin as [Heq|Hin]; [by destruct Ha|done].
Qed.

(** What the invariant says of a world with an outstanding call. *)
Lemma outstanding_call (w : World) (c : nat * option Results)
    (rest : list (nat * option Results)) :
  invariant w -> pending w = c :: rest ->
  rest = [] /\ _reading (reader w) = true /\ _error (reader w) = false /\
  errors w = [] /\ ticks w = [] /\ ended w = false.
Proof.
  intros [Hlen Hrd Herr Hend] Hp.
  assert (_reading (reader w) = true) as Hr by (apply Hrd; by rewrite Hp).
  assert (_error (reader w) = false) as He.
  { destruct (_error (reader w)); [|done]. destruct Herr as [Hnil _]. congruence. }
  rewrite He in Herr. destruct Herr as [Hes Ht].
  rewrite Hp in Hlen. split; [destruct rest; [done|cbn in Hlen; lia]|].
  repeat split; try done.
  destruct (ended w); [|done]. destruct (Hend eq_refl). congruence.
Qed.

(** With nothing outstanding and nothing queued, only [_read] acts. *)
Lemma idle_run (acts : list Action) (w : World) :
  pending w = [] -> ticks w = [] -> Pull ∉ acts -> run acts w = w.
Proof.
  intros Hp Ht Hno. induction acts as [|a acts IH]; [done|].
  rewrite run_cons. apply not_elem_of_cons in Hno as [Ha Hno].
  assert (step w a = w) as ->; [|by apply IH].
  destruct a; [done| |]; cbn.
  - unfold settle. by rewrite Hp.
  - unfold tick. by rewrite Ht.
Qed.

(** C3. When a call of [scanChunk] fails, the chunks pushed so far stay
    pushed and [null] follows them; the reader is in error; the error is not
    emitted by the handler but queued, and it is emitted once, by the queued
    callback. Whatever happens afterwards, no call of [scanChunk] is made. *)
Theorem failed_fetch_is_terminal (w : World) (n : nat) (previous : option Results)
    (rest : list (nat * option Results)) (e : Error) (acts : list Action) :
  reachable w ->
  pending w = (n, previous) :: rest ->
  scanChunk n previous = Some (Rejected e) ->
  pushed (settle w) = pushed w ++ [Null] /\
  state_of (settle w) = Errored /\
  calls (settle w) = calls w /\
  errors (settle w) = [] /\ ticks (settle w) = [e] /\
  calls (run acts (settle w)) = calls w /\
  pending (run acts (settle w)) = [] /\
  pushed (run acts (settle w)) = pushed w ++ [Null] /\
  state_of (run acts (settle w)) = Errored /\
  errors (run acts (settle w)) ++ ticks (run acts (settle w)) = [e] /\
  (Tick ∈ acts -> errors (run acts (settle w)) = [e]).
Proof.
  intros Hreach Hp Hs. pose proof (reachable_invariant w Hreach) as Hinv.
  destruct (outstanding_call w _ _ Hinv Hp) as (-> & Hr & He & Hes & Ht & Hend).
  pose proof (settle_invariant w Hinv) as Hinv'.
  assert (settle w = on_rejected e
            {| reader := reader w; calls := calls w; pending := [];
               pushed := pushed w; ticks := ticks w; errors := errors w |}) as Hsettle.
  { unfold settle. by rewrite Hp, Hs. }
  rewrite Hsettle in *. clear Hsettle.
  set (w' := on_rejected e _) in *.
  assert (_error (reader w') = true) as He' by done.
  assert (errors w' = [] /\ ticks w' = [e]) as [Hes' Ht'].
  { subst w'. cbn. by rewrite Hes, Ht. }
  destruct (errored_run acts w' Hinv' He') as (Hr1 & Hc1 & Hp1 & Hpd1 & Hd1).
  repeat split; try done.
  - unfold state_of. by rewrite Hr1, He'.
  - by rewrite Hd1, Hes', Ht'.
  - intros Hin. by apply errored_run_emits.
Qed.

(** C4. When the stream answers [false] to the push of a page, the reader is
    paused with nothing outstanding, and nothing but [_read] makes it call
    [scanChunk] again. The next [_read] calls it with the page that was
    declined, which carries the start key for the page after it. *)
Theorem declined_push_pauses (w : World) (n : nat) (previous : option Results)
    (rest : list (nat * option Results)) (r : Results) (acts : list Action) :
  reachable w ->
  pending w = (n, previous) :: rest ->
  scanChunk n previous = Some (Resolved r) ->
  results r <> [] ->
  push_result (length (pushed w)) = false ->
  Pull ∉ acts ->
  state_of (settle w) = Paused /\
  pushed (settle w) = pushed w ++ [Batch (results r)] /\
  _previous (reader (settle w)) = Some r /\
  calls (settle w) = calls w /\
  pending (settle w) = [] /\
  run acts (settle w) = settle w /\
  (forall k, startKey r = Some k ->
     calls (_read (run acts (settle w))) = calls w ++ [Some r] /\
     pending (_read (run acts (settle w))) = [(length (calls w), Some r)] /\
     pushed (_read (run acts (settle w))) = pushed (settle w) /\
     state_of (_read (run acts (settle w))) = Reading).
Proof.
  intros Hreach Hp Hs Hres Hpush Hno.
  pose proof (reachable_invariant w Hreach) as Hinv.
  destruct (outstanding_call w _ _ Hinv Hp) as (-> & Hr & He & Hes & Ht & Hend).
  assert (settle w =
    {| reader := {| _previous := Some r;
                    _scanned := _scanned (reader w) + length (results r);
                    _reading := false; _error := false |};
       calls := calls w; pending := [];
       pushed := pushed w ++ [Batch (results r)];
       ticks := []; errors := [] |}) as Hsettle.
  { unfold settle. rewrite Hp, Hs. unfold on_resolved, deliver.
    destruct (results r) as [|x xs] eqn:Er; [done|].
    cbn. rewrite Hpush. cbn.
    unfold with_reader, set_reading, set_scanned, set_previous. cbn.
    by rewrite He, Hes, Ht. }
  assert (run acts (settle w) = settle w) as Hrun.
  { apply idle_run; try done; by rewrite Hsettle. }
  rewrite Hrun. rewrite Hsettle. cbn.
  repeat split; try done.
  - unfold state_of, ended. cbn.
    rewrite ended_app. cbn. rewrite orb_false_r.
    unfold ended in Hend. rewrite Hend. by rewrite andb_false_r.
  - unfold _read, scanChunkRecursive, no_more_results. cbn. by rewrite H.
  - unfold _read, scanChunkRecursive, no_more_results. cbn. by rewrite H.
  - unfold _read, scanChunkRecursive, no_more_results. cbn. by rewrite H.
  - unfold _read, scanChunkRecursive, no_more_results. cbn. by rewrite H.
Qed.

(** C5. A call of [_read] while the reader is reading, or after it has
    failed, changes nothing. After the scan is exhausted, it makes no call of
    [scanChunk] and leaves every field of the reader as it was. So at most
    one call of [scanChunk] is outstanding, and while one is, the reader is
    reading. *)
Theorem read_is_guarded (w : World) :
  reachable w ->
  (state_of w = Reading -> _read w = w) /\
  (state_of w = Errored -> _read w = w) /\
  (state_of w = Exhausted ->
     reader (_read w) = reader w /\ calls (_read w) = calls w /\
     pending (_read w) = pending w /\ ticks (_read w) = ticks w /\
     errors (_read w) = errors w /\ state_of (_read w) = Exhausted) /\
  length (pending w) <= 1 /\
  (pending w <> [] -> state_of w = Reading /\ _read w = w).
Proof.
  intros Hreach. pose proof (reachable_invariant w Hreach) as Hinv.
  split; [|split; [|split; [|split]]].
  - unfold state_of, _read. destruct (_error (reader w)); [done|].
    destruct (_reading (reader w)); [done|].
    destruct (_previous (reader w)); [|done]. by destruct (_ && _).
  - unfold state_of, _read. destruct (_error (reader w)).
    + by destruct (_reading (reader w)).
    + destruct (_reading (reader w)); [done|].
      destruct (_previous (reader w)); [|done]. by destruct (_ && _).
  - unfold state_of, _read, scanChunkRecursive.
    destruct (_error (reader w)) eqn:He; [done|].
    destruct (_reading (reader w)) eqn:Hr; [done|].
    destruct (_previous (reader w)) as [p|] eqn:Hprev; [|done].
    destruct (no_more_results (reader w)) eqn:Hno; [|done].
    destruct (ended w) eqn:Hend; [|done]. intros _.
    assert (no_more_results (reader (with_reader (set_reading true) w)) = true) as ->.
    { unfold no_more_results in *. cbn. by rewrite Hprev in *. }
    destruct_world w. subst. cbn. repeat split; try done.
    unfold state_of, ended in *. cbn in *.
    rewrite ended_app. by rewrite Hno, Hend.
  - apply Hinv.
  - intros Hne. destruct (pending w) as [|c rest] eqn:Hp; [done|].
    destruct (outstanding_call w _ _ Hinv Hp) as (_ & Hr & He & _).
    unfold state_of, _read. by rewrite He, Hr.
Qed.

(** *** More of what the reader keeps *)

(** The records handed to the stream so far, in order. *)
Definition items_of (c : Chunk) : list Item :=
  match c with Batch items => items | Null => [] end.

Definition delivered (w : World) : list Item := flat_map items_of (pushed w).

Lemma delivered_push (c : Chunk) (w : World) :
  delivered (push c w).2 = delivered w ++ items_of c.
Proof. unfold delivered. cbn. rewrite flat_map_app. cbn. by rewrite app_nil_r. Qed.

(** X1. The reader never pushes an empty batch: a page without records is
    not handed to the stream. *)
Theorem never_pushes_empty_batch (w : World) (items : list Item) :
  reachable w -> Batch items ∈ pushed w -> items <> [].
Proof.
  intros Hreach Hin ->.
  pose proof (reachable_batches w Hreach) as Hall.
  unfold batches_nonempty in Hall. rewrite Forall_forall in Hall.
  by apply (Hall _ Hin).
Qed.

Definition counts_delivered (w : World) : Prop :=
  _scanned (reader w) = length (delivered w).

Lemma scanChunkRecursive_counts (w : World) :
  counts_delivered w -> counts_delivered (scanChunkRecursive w).
Proof.
  unfold counts_delivered, scanChunkRecursive. intros H.
  destruct (no_more_results (reader w)); [|done].
  rewrite delivered_push. cbn. by rewrite app_nil_r.
Qed.

Lemma deliver_counts (r : Results) (w : World) :
  counts_delivered w -> counts_delivered (deliver r w).
Proof.
  unfold counts_delivered, deliver. intros H.
  destruct (negb (length (results r) =? 0)%nat); [|done].
  cbn. unfold delivered. cbn. rewrite flat_map_app, length_app. cbn.
  rewrite app_nil_r. unfold delivered in H. by rewrite H.
Qed.

Lemma step_counts (w : World) (a : Action) :
  counts_delivered w -> counts_delivered (step w a).
Proof.
  intros H. destruct a; cbn.
  - unfold _read. destruct (_reading (reader w)); [done|].
    destruct (_error (reader w)); [done|]. by apply scanChunkRecursive_counts.
  - unfold settle. destruct (pending w) as [|[n previous] rest]; [done|].
    destruct (scanChunk n previous) as [[r|e]|]; [| |done].
    + unfold on_resolved. cbv zeta.
      destruct (_reading _);
        [apply scanChunkRecursive_counts|]; by apply deliver_counts.
    + unfold on_rejected, counts_delivered, delivered. cbn.
      rewrite flat_map_app. cbn. by rewrite app_nil_r.
  - unfold tick. by destruct (ticks w).
Qed.

(** X2. [_scanned] is the number of records handed to the stream so far. *)
Theorem scanned_counts_delivered (w : World) :
  reachable w -> _scanned (reader w) = length (delivered w).
Proof.
  intros [acts ->]. assert (counts_delivered initial) as H by done.
  revert H. generalize initial. induction acts as [|a acts IH]; intros w H; [done|].
  apply IH. by apply step_counts.
Qed.

Lemma pushed_scanChunkRecursive (w : World) :
  pushed (scanChunkRecursive w) =
  pushed w ++ (if no_more_results (reader w) then [Null] else []).
Proof.
  unfold scanChunkRecursive. destruct (no_more_results (reader w)); cbn; [done|].
  by rewrite app_nil_r.
Qed.

Lemma pushed_deliver (r : Results) (w : World) :
  pushed (deliver r w) =
  pushed w ++ (if negb (length (results r) =? 0)%nat then [Batch (results r)] else []).
Proof.
  unfold deliver. destruct (negb (length (results r) =? 0)%nat); cbn; [done|].
  by rewrite app_nil_r.
Qed.

Lemma pushed_on_resolved (r : Results) (w : World) :
  exists (bs : list (list Item)) (n : nat),
    pushed (on_resolved r w) = pushed w ++ (Batch <$> bs) ++ replicate n Null.
Proof.
  unfold on_resolved. cbv zeta.
  destruct (_reading _).
  - rewrite pushed_scanChunkRecursive, pushed_deliver. cbn.
    destruct (negb _), (no_more_results _); rewrite <- ?app_assoc.
    + by exists [results r], 1.
    + by exists [results r], 0.
    + by exists [], 1.
    + by exists [], 0.
  - rewrite pushed_deliver. cbn. destruct (negb _).
    + by exists [results r], 0.
    + by exists [], 0.
Qed.

(** What one action pushes: batches, then [null]s; and no batch once
    end-of-sequence has been signalled. *)
Lemma step_pushed (w : World) (a : Action) :
  invariant w ->
  exists (bs : list (list Item)) (n : nat),
    pushed (step w a) = pushed w ++ (Batch <$> bs) ++ replicate n Null /\
    (ended w = true -> bs = []).
Proof.
  intros Hinv. destruct a; cbn.
  - unfold _read. destruct (_reading (reader w)) eqn:Hr;
      [exists [], 0; by rewrite app_nil_r|].
    destruct (_error (reader w)) eqn:He; [exists [], 0; by rewrite app_nil_r|].
    rewrite pushed_scanChunkRecursive. cbn.
    destruct (no_more_results _); [by exists [], 1|by exists [], 0].
  - unfold settle. destruct (pending w) as [|[k previous] rest] eqn:Hp;
      [exists [], 0; by rewrite app_nil_r|].
    destruct (outstanding_call w _ _ Hinv Hp) as (_ & _ & _ & _ & _ & Hend).
    rewrite Hend.
    destruct (scanChunk k previous) as [[r|e]|];
      [| |exists [], 0; by rewrite app_nil_r].
    + destruct (pushed_on_resolved r
                  {| reader := reader w; calls := calls w; pending := rest;
                     pushed := pushed w; ticks := ticks w; errors := errors w |})
        as (bs & n & H).
      by exists bs, n.
    + by exists [], 1.
  - unfold tick. destruct (ticks w); exists [], 0; by rewrite app_nil_r.
Qed.

Lemma ended_batches_nulls (bs : list (list Item)) (n : nat) :
  existsb is_Null ((Batch <$> bs) ++ replicate n Null) = negb (n =? 0)%nat.
Proof.
  rewrite existsb_app.
  assert (existsb is_Null (Batch <$> bs) = false) as ->.
  { induction bs as [|b bs IH]; [done|]. cbn. exact IH. }
  by destruct n.
Qed.

(** X3. Nothing follows end-of-sequence but end-of-sequence: the chunks
    pushed are batches followed by [null]s, so no records are pushed after
    [null]. *)
Theorem no_batch_after_null (w : World) :
  reachable w ->
  exists (bs : list (list Item)) (n : nat),
    pushed w = (Batch <$> bs) ++ replicate n Null.
Proof.
  intros [acts ->]. pose proof invariant_initial as Hinv.
  assert (exists (bs : list (list Item)) (n : nat),
            pushed initial = (Batch <$> bs) ++ replicate n Null) as H
    by (by exists [], 0).
  revert Hinv H. generalize initial.
  induction acts as [|a acts IH]; intros w Hinv H; [done|].
  rewrite run_cons. apply IH; [by apply step_invariant|].
  destruct H as (bs & n & Hw).
  destruct (step_pushed w a Hinv) as (bs' & n' & Hstep & Hend).
  unfold ended in Hend. rewrite Hw, ended_batches_nulls in Hend.
  rewrite Hstep, Hw. destruct n as [|n].
  - exists (bs ++ bs'), n'. cbn. rewrite app_nil_r, fmap_app. by rewrite <- app_assoc.
  - rewrite (Hend eq_refl). cbn [fmap list_fmap app].
    exists bs, (S n + n'). by rewrite replicate_add, <- app_assoc.
Qed.

(** *** The calls of [scanChunk] form a chain

    [cursor_at n] is the argument call number [n] is made with if every call
    before it has resolved: [null] for the first, and then the page the call
    before resolved to. [page_at n] is the records call number [n] resolves
    to. *)

Fixpoint cursor_at (n : nat) : option Results :=
  match n with
  | 0 => None
  | S m =>
      match scanChunk m (cursor_at m) with
      | Some (Resolved r) => Some r
      | _ => None
      end
  end.

Definition page_at (n : nat) : list Item :=
  match scanChunk n (cursor_at n) with
  | Some (Resolved r) => results r
  | _ => []
  end.

(** The number of calls that have resolved, read off the calls made, the
    outstanding ones and the error flag. *)
Definition resolved_count (cs : list (option Results))
    (pd : list (nat * option Results)) (err : bool) : nat :=
  match pd with
  | [] => if err then pred (length cs) else length cs
  | _ :: _ => pred (length cs)
  end.

Definition resolved_calls (w : World) : nat :=
  resolved_count (calls w) (pending w) (_error (reader w)).

Record history_of (cs : list (option Results)) (pd : list (nat * option Results))
    (prev : option Results) (err : bool) (dl : list Item) : Prop := {
  hist_calls : forall i c, cs !! i = Some c -> c = cursor_at i;
  hist_chain : forall i, S i < length cs ->
    exists r key, scanChunk i (cursor_at i) = Some (Resolved r) /\ startKey r = Some key;
  hist_pending : forall n c rest, pd = (n, c) :: rest ->
    S n = length cs /\ c = cursor_at n;
  hist_previous : pd = [] -> err = false ->
    prev = cursor_at (length cs) /\
    forall n, length cs = S n -> exists r, scanChunk n (cursor_at n) = Some (Resolved r);
  hist_delivered : dl = flat_map page_at (seq 0 (resolved_count cs pd err))
}.

Definition history (w : World) : Prop :=
  history_of (calls w) (pending w) (_previous (reader w)) (_error (reader w))
    (delivered w).

Lemma history_call cs prev dl :
  history_of cs [] prev false dl ->
  (forall r, prev = Some r -> exists key, startKey r = Some key) ->
  history_of (cs ++ [prev]) [(length cs, prev)] prev false dl.
Proof.
  intros [Hc Hch _ Hprev Hd] Hkey.
  destruct (Hprev eq_refl eq_refl) as [Hcur Hres].
  split.
  - intros i c Hi. apply lookup_app_Some in Hi as [Hi|[Hlen Hi]]; [by apply Hc|].
    apply list_lookup_singleton_Some in Hi as [Hi <-].
    replace i with (length cs) by lia. done.
  - intros i Hi. rewrite length_app in Hi. cbn in Hi.
    destruct (decide (S i < length cs)) as [Hlt|Hge]; [by apply Hch|].
    assert (length cs = S i) as Hlen by lia.
    destruct (Hres i Hlen) as [r Hr]. exists r.
    destruct (Hkey r) as [key Hk]; [|by exists key].
    rewrite Hcur, Hlen. cbn. by rewrite Hr.
  - intros n c rest [= <- <- <-]. rewrite length_app. cbn. split; [lia|done].
  - done.
  - cbn. rewrite length_app. cbn. rewrite Hd. cbn.
    by replace (pred (length cs + 1)) with (length cs) by lia.
Qed.

Lemma history_resolved cs n c prev dl (r : Results) :
  history_of cs [(n, c)] prev false dl ->
  scanChunk n c = Some (Resolved r) ->
  history_of cs [] (Some r) false (dl ++ results r).
Proof.
  intros [Hc Hch Hp _ Hd] Hr.
  destruct (Hp n c [] eq_refl) as [Hlen ->].
  split.
  - done.
  - done.
  - done.
  - intros _ _. rewrite <- Hlen. cbn. rewrite Hr. split; [done|].
    intros n' [= <-]. by exists r.
  - cbn in *. rewrite <- Hlen in *. cbn in Hd.
    rewrite seq_S, flat_map_app. cbn. rewrite app_nil_r, <- Hd.
    unfold page_at. by rewrite Hr.
Qed.

Lemma history_rejected cs n c prev dl :
  history_of cs [(n, c)] prev false dl -> history_of cs [] prev true dl.
Proof. intros [Hc Hch Hp _ Hd]. by split. Qed.

Lemma delivered_scanChunkRecursive (w : World) :
  delivered (scanChunkRecursive w) = delivered w.
Proof.
  unfold delivered. rewrite pushed_scanChunkRecursive, flat_map_app.
  destruct (no_more_results _); cbn; by rewrite app_nil_r.
Qed.

Lemma delivered_deliver (r : Results) (w : World) :
  delivered (deliver r w) = delivered w ++ results r.
Proof.
  unfold delivered. rewrite pushed_deliver, flat_map_app.
  destruct (results r); cbn; by rewrite ?app_nil_r.
Qed.

Lemma no_more_results_false (rd : Reader) (r : Results) :
  no_more_results rd = false -> _previous rd = Some r ->
  exists key, startKey r = Some key.
Proof.
  unfold no_more_results. intros H Hp. rewrite Hp in H.
  destruct (startKey r); [by eexists|done].
Qed.

(** [scanChunkRecursive] in a world with nothing outstanding keeps the
    history. *)
Lemma scanChunkRecursive_history (w : World) :
  pending w = [] -> _error (reader w) = false ->
  history w -> history (scanChunkRecursive w).
Proof.
  intros Hp He H. unfold history. rewrite delivered_scanChunkRecursive.
  unfold scanChunkRecursive. destruct (no_more_results (reader w)) eqn:Hno.
  - exact H.
  - change (history_of (calls w ++ [_previous (reader w)])
              (pending w ++ [(length (calls w), _previous (reader w))])
              (_previous (reader w)) (_error (reader w)) (delivered w)).
    unfold history in H. rewrite Hp, He in *.
    apply history_call; [done|]. intros r. by apply no_more_results_false.
Qed.

(** The world a handler starts in: the settled promise is no longer
    outstanding. *)
Definition settled (w : World) (rest : list (nat * option Results)) : World :=
  {| reader := reader w; calls := calls w; pending := rest;
     pushed := pushed w; ticks := ticks w; errors := errors w |}.

Lemma deliver_view (r : Results) (w : World) :
  calls (deliver r w) = calls w /\ pending (deliver r w) = pending w /\
  _previous (reader (deliver r w)) = _previous (reader w) /\
  _error (reader (deliver r w)) = _error (reader w).
Proof. unfold deliver. by destruct (negb _). Qed.

Lemma step_history (w : World) (a : Action) :
  invariant w -> history w -> history (step w a).
Proof.
  intros Hinv H. destruct a; cbn.
  - unfold _read. destruct (_reading (reader w)) eqn:Hr; [done|].
    destruct (_error (reader w)) eqn:He; [done|].
    assert (pending w = []) as Hp.
    { destruct (pending w) eqn:E; [done|].
      destruct (outstanding_call w _ _ Hinv E) as (_ & ? & _); congruence. }
    by apply scanChunkRecursive_history.
  - unfold settle. destruct (pending w) as [|[n c] rest] eqn:Hp; [done|].
    destruct (outstanding_call w _ _ Hinv Hp) as (-> & Hr & He & _).
    fold (settled w []).
    destruct (scanChunk n c) as [[r|e]|] eqn:Hs; [| |done].
    + unfold history in H. rewrite Hp, He in H.
      pose proof (history_resolved _ _ _ _ _ r H Hs) as H'.
      set (w1 := with_reader (set_previous (Some r)) (settled w [])).
      assert (history (deliver r w1)) as Hd.
      { unfold history. rewrite delivered_deliver.
        destruct (deliver_view r w1) as (-> & -> & -> & ->).
        subst w1. cbn. by rewrite He. }
      unfold on_resolved. cbv zeta. fold w1.
      destruct (_reading (reader (deliver r w1))); [|done].
      apply scanChunkRecursive_history; [| |done].
      * by destruct (deliver_view r w1) as (_ & -> & _).
      * destruct (deliver_view r w1) as (_ & _ & _ & ->). subst w1. cbn. exact He.
    + unfold history in *. rewrite Hp, He in H.
      change (history_of (calls w) [] (_previous (reader w)) true
                (flat_map items_of (pushed w ++ [Null]))).
      rewrite flat_map_app. cbn. rewrite app_nil_r.
      by apply (history_rejected _ n c).
  - unfold tick. by destruct (ticks w).
Qed.

Lemma reachable_history (w : World) : reachable w -> history w.
Proof.
  intros [acts ->]. pose proof invariant_initial as Hinv.
  assert (history initial) as H.
  { split; cbn; try done. intros i Hi. lia. }
  revert Hinv H. generalize initial.
  induction acts as [|a acts IH]; intros w Hinv H; [done|].
  rewrite run_cons. apply IH; [by apply step_invariant|by apply step_history].
Qed.

(** X4. The first call of [scanChunk] is made with [null]. Every later call
    is made with the page that the call before it resolved to, and that page
    has a start key: no page is asked for twice and none is skipped. *)
Theorem calls_are_chained (w : World) (i : nat) (c : option Results) :
  reachable w ->
  calls w !! i = Some c ->
  match i with
  | 0 => c = None
  | S j =>
      exists cj r key,
        calls w !! j = Some cj /\
        scanChunk j cj = Some (Resolved r) /\
        startKey r = Some key /\
        c = Some r
  end.
Proof.
  intros Hreach Hi. destruct (reachable_history w Hreach) as [Hc Hch _ _ _].
  pose proof (Hc i c Hi) as ->. destruct i as [|j]; [done|].
  assert (S j < length (calls w)) as Hlt by (by apply lookup_lt_Some in Hi).
  destruct (Hch j Hlt) as (r & key & Hr & Hk).
  destruct (lookup_lt_is_Some_2 (calls w) j) as [cj Hj]; [lia|].
  pose proof (Hc j cj Hj) as ->.
  exists (cursor_at j), r, key. cbn. by rewrite Hr.
Qed.

(** X5. The records handed to the stream are the records of the pages that
    have resolved, page after page in the order of the calls: none is lost,
    none is repeated, none is reordered. *)
Theorem delivers_resolved_pages (w : World) :
  reachable w ->
  delivered w = flat_map page_at (seq 0 (resolved_calls w)).
Proof. intros Hreach. by destruct (reachable_history w Hreach) as [_ _ _ _ Hd]. Qed.

(** The chunk a page is pushed as: none for a page without records. *)
Definition batch_of (r : Results) : list Chunk :=
  if negb (length (results r) =? 0)%nat then [Batch (results r)] else [].

(** X6. A page that resolves and is not declined (it has no records, or the
    stream answers [true] to its push) keeps the loop going: with a start
    key the next call is made at once, with that page; without one [null] is
    pushed and the scan is exhausted. A page without records is not pushed,
    but its start key is used. *)
Theorem taken_page_continues_or_ends (w : World) (n : nat)
    (previous : option Results) (rest : list (nat * option Results)) (r : Results) :
  reachable w ->
  pending w = (n, previous) :: rest ->
  scanChunk n previous = Some (Resolved r) ->
  results r = [] \/ push_result (length (pushed w)) = true ->
  _previous (reader (settle w)) = Some r /\
  match startKey r with
  | Some _ =>
      pushed (settle w) = pushed w ++ batch_of r /\
      calls (settle w) = calls w ++ [Some r] /\
      pending (settle w) = [(length (calls w), Some r)] /\
      state_of (settle w) = Reading
  | None =>
      pushed (settle w) = pushed w ++ batch_of r ++ [Null] /\
      calls (settle w) = calls w /\
      pending (settle w) = [] /\
      state_of (settle w) = Exhausted
  end.
Proof.
  intros Hreach Hp Hs Htaken.
  pose proof (reachable_invariant w Hreach) as Hinv.
  destruct (outstanding_call w _ _ Hinv Hp) as (-> & Hr & He & _ & _ & Hend).
  unfold settle. rewrite Hp, Hs.
  unfold on_resolved, deliver, scanChunkRecursive, no_more_results, batch_of,
    state_of, ended.
  destruct (results r) as [|x xs] eqn:Hres; cbn.
  - rewrite Hr. cbn.
    destruct (startKey r) eqn:Hk; cbn; rewrite ?Hk, ?He, ?Hr; cbn;
      rewrite ?app_nil_r, ?existsb_app; cbn; by rewrite ?orb_true_r.
  - destruct Htaken as [?|Hpush]; [done|]. rewrite Hpush. cbn.
    destruct (startKey r) eqn:Hk; cbn; rewrite ?Hk, ?He, ?Hr; cbn;
      rewrite <- ?app_assoc, ?existsb_app; cbn; by rewrite ?orb_true_r.
Qed.

(** *** A finite scan is delivered whole

    The provider serves the pages [ps], one per call: every page but the last
    carries a start key, the last carries none. *)

Section FiniteScan.

Variable ps : list Results.
Hypothesis ps_nonempty : ps <> [].
Hypothesis ps_served :
  forall i r, ps !! i = Some r -> scanChunk i (cursor_at i) = Some (Resolved r).
Hypothesis ps_keys :
  forall i r, ps !! i = Some r -> (is_Some (startKey r) <-> S i < length ps).

(** What the induction carries: the two invariants, and no error. *)
Record sound (w : World) : Prop := {
  sound_invariant : invariant w;
  sound_history : history w;
  sound_counts : counts_delivered w;
  sound_quiet : _error (reader w) = false
}.

(** What is left to do: two actions for each page not yet resolved, one to
    resume when nothing is outstanding, one to signal the end. *)
Definition remaining (w : World) : nat :=
  2 * (length ps - resolved_calls w) +
  (match pending w with [] => 1 | _ => 0 end) +
  (if ended w then 0 else 1).

Lemma calls_within (w : World) (i : nat) :
  history w -> i < length (calls w) -> i < length ps.
Proof using All.
  intros [Hc Hch _ _ _]. induction i as [|j IH]; intros Hi.
  - destruct ps; [done|cbn; lia].
  - assert (j < length ps) as Hj by (apply IH; lia).
    destruct (lookup_lt_is_Some_2 ps j Hj) as [rj Hrj].
    destruct (Hch j Hi) as (r & key & Hr & Hk).
    rewrite (ps_served j rj Hrj) in Hr. injection Hr as <-.
    apply (ps_keys j rj Hrj). by eexists.
Qed.

(** The outstanding call resolves, to its page. *)
Lemma outstanding_resolves (w : World) (n : nat) (c : option Results)
    (rest : list (nat * option Results)) :
  history w -> pending w = (n, c) :: rest ->
  S n = length (calls w) /\ n < length ps /\
  exists r, ps !! n = Some r /\ scanChunk n c = Some (Resolved r).
Proof using All.
  intros H Hp. destruct (hist_pending _ _ _ _ _ H n c rest Hp) as [Hlen ->].
  assert (n < length ps) as Hn by (apply (calls_within w); [done|lia]).
  split; [done|]. split; [done|].
  destruct (lookup_lt_is_Some_2 ps n Hn) as [r Hr]. exists r. split; [done|].
  by apply ps_served.
Qed.

Lemma scanChunkRecursive_cases (w : World) :
  pending w = [] ->
  _error (reader (scanChunkRecursive w)) = _error (reader w) /\
  (if no_more_results (reader w)
   then pending (scanChunkRecursive w) = [] /\
        calls (scanChunkRecursive w) = calls w /\
        ended (scanChunkRecursive w) = true
   else (exists c, pending (scanChunkRecursive w) = [c]) /\
        length (calls (scanChunkRecursive w)) = S (length (calls w)) /\
        ended (scanChunkRecursive w) = ended w).
Proof.
  intros Hp. unfold scanChunkRecursive, ended.
  destruct (no_more_results (reader w)); cbn.
  - rewrite existsb_app. cbn. by rewrite orb_true_r.
  - rewrite Hp, length_app. cbn. split; [done|]. split; [by eexists|].
    split; [lia|done].
Qed.

Lemma step_sound (w : World) (a : Action) : sound w -> sound (step w a).
Proof using All.
  intros [Hinv H Hc He].
  split; [by apply step_invariant|by apply step_history|by apply step_counts|].
  destruct a; cbn.
  - unfold _read. destruct (_reading (reader w)) eqn:Hr; [done|]. rewrite He.
    unfold scanChunkRecursive. by destruct (no_more_results _).
  - unfold settle. destruct (pending w) as [|[n c] rest] eqn:Hp; [done|].
    destruct (outstanding_resolves w n c rest H Hp) as (_ & _ & r & _ & ->).
    unfold on_resolved, scanChunkRecursive. cbv zeta.
    destruct (deliver_view r
                (with_reader (set_previous (Some r))
                   {| reader := reader w; calls := calls w; pending := rest;
                      pushed := pushed w; ticks := ticks w; errors := errors w |}))
      as (_ & _ & _ & Herr).
    destruct (_reading _); [destruct (no_more_results _)|]; cbn; by rewrite ?Herr.
  - unfold tick. by destruct (ticks w).
Qed.

Lemma resolved_calls_pending (w : World) (n : nat) (c : option Results)
    (rest : list (nat * option Results)) :
  pending w = (n, c) :: rest -> S n = length (calls w) -> resolved_calls w = n.
Proof. intros Hp Hlen. unfold resolved_calls. rewrite Hp. cbn. lia. Qed.

Lemma ended_deliver (r : Results) (w : World) : ended (deliver r w) = ended w.
Proof.
  unfold ended. rewrite pushed_deliver, existsb_app.
  destruct (negb _); cbn; by rewrite orb_false_r.
Qed.

(** Every action of the consumer's loop brings the end nearer; when the loop
    has nothing to do, the scan is exhausted. *)
Lemma progress (w : World) :
  sound w ->
  match next_action w with
  | Some a => remaining (step w a) < remaining w
  | None => state_of w = Exhausted
  end.
Proof using All.
  intros [Hinv H _ He]. unfold next_action.
  destruct (pending w) as [|[n c] rest] eqn:Hp.
  - assert (ticks w = []) as ->.
    { destruct Hinv as [_ _ Herr _]. rewrite He in Herr. by destruct Herr. }
    assert (_reading (reader w) = false) as Hr.
    { destruct (_reading (reader w)) eqn:E; [|done].
      destruct Hinv as [_ Hrd _ _]. by destruct (proj1 Hrd E). }
    assert (no_more_results (reader w) && ended w = false ->
            remaining (step w Pull) < remaining w) as Hpull.
    { intros Hnot.
      assert (step w Pull = scanChunkRecursive (with_reader (set_reading true) w))
        as -> by (cbn; unfold _read; by rewrite Hr, He).
      destruct (scanChunkRecursive_cases (with_reader (set_reading true) w) Hp)
        as [Herr Hcases].
      change (no_more_results (reader (with_reader (set_reading true) w)))
        with (no_more_results (reader w)) in Hcases.
      change (ended (with_reader (set_reading true) w)) with (ended w) in Hcases.
      change (calls (with_reader (set_reading true) w)) with (calls w) in Hcases.
      change (_error (reader (with_reader (set_reading true) w)))
        with (_error (reader w)) in Herr.
      rewrite He in Herr.
      unfold remaining, resolved_calls, resolved_count. rewrite Herr, Hp, He.
      destruct (no_more_results (reader w)) eqn:Hnm.
      - destruct Hcases as (-> & -> & ->). cbn in Hnot. rewrite Hnot. lia.
      - destruct Hcases as ([c ->] & Hlen & ->). rewrite Hlen.
        assert (ended w = false) as ->; [|lia].
        destruct (ended w) eqn:E; [|done]. destruct Hinv as [_ _ _ Hend].
        destruct (Hend E) as [_ [?|?]]; congruence. }
    unfold state_of. rewrite He, Hr.
    destruct (_previous (reader w)) as [r|] eqn:Hprev.
    + destruct (no_more_results (reader w) && ended w) eqn:E; [done|by apply Hpull].
    + apply Hpull. unfold no_more_results. by rewrite Hprev.
  - destruct (outstanding_call w _ _ Hinv Hp) as (-> & Hr & _ & _ & _ & Hend).
    destruct (outstanding_resolves w n c [] H Hp) as (Hlen & Hn & r & _ & Hs).
    assert (remaining w = 2 * (length ps - n) + 1) as ->.
    { unfold remaining. rewrite (resolved_calls_pending w n c [] Hp Hlen), Hp, Hend. lia. }
    cbn. unfold settle. rewrite Hp, Hs. fold (settled w []).
    set (d := deliver r (with_reader (set_previous (Some r)) (settled w []))).
    assert (calls d = calls w /\ pending d = [] /\ _error (reader d) = false /\
            ended d = false) as (Hdc & Hdp & Hde & Hdend).
    { subst d. rewrite ended_deliver.
      destruct (deliver_view r (with_reader (set_previous (Some r)) (settled w [])))
        as (-> & -> & _ & ->). repeat split; try done. }
    unfold on_resolved. cbv zeta. fold d.
    destruct (_reading (reader d)).
    + destruct (scanChunkRecursive_cases d Hdp) as [Herr Hcases].
      unfold remaining, resolved_calls, resolved_count. rewrite Herr, Hde.
      destruct (no_more_results (reader d)).
      * destruct Hcases as (-> & -> & ->). rewrite Hdc. lia.
      * destruct Hcases as ([c' ->] & Hlen' & ->). rewrite Hlen', Hdc, Hdend. lia.
    + unfold remaining, resolved_calls, resolved_count.
      rewrite Hdp, Hde, Hdc, Hdend. lia.
Qed.

Lemma remaining_initial : remaining initial = 2 * length ps + 2.
Proof. unfold remaining. cbn. lia. Qed.

Lemma sound_initial : sound initial.
Proof.
  split; [apply invariant_initial| |done|done].
  split; cbn; try done. intros i Hi. lia.
Qed.

(** With fuel for what remains, the loop ends in a world with nothing left to
    do. *)
Lemma drive_ends (fuel : nat) (w : World) :
  sound w -> remaining w <= fuel ->
  sound (drive fuel w) /\ state_of (drive fuel w) = Exhausted.
Proof using All.
  revert w. induction fuel as [|fuel IH]; intros w Hs Hfuel.
  - pose proof (progress w Hs) as Hprog. cbn.
    destruct (next_action w) as [a|]; [lia|done].
  - pose proof (progress w Hs) as Hprog. cbn.
    destruct (next_action w) as [a|]; [|done].
    apply IH; [by apply step_sound|lia].
Qed.

Lemma flat_map_seq_lookup {A} (f : nat -> list Item) (g : A -> list Item) (l : list A) :
  (forall i x, l !! i = Some x -> f i = g x) ->
  flat_map f (seq 0 (length l)) = flat_map g l.
Proof.
  induction l as [|x l IH] using rev_ind; intros Hf; [done|].
  rewrite length_app. cbn. rewrite Nat.add_1_r, seq_S, !flat_map_app. cbn.
  rewrite !app_nil_r. f_equal.
  - apply IH. intros i y Hi. apply Hf. by apply lookup_app_l_Some.
  - apply Hf. rewrite lookup_app_r by lia. by rewrite Nat.sub_diag.
Qed.

(** An exhausted world has made one call per page. *)
Lemma exhausted_calls (w : World) :
  sound w -> state_of w = Exhausted ->
  pending w = [] /\ length (calls w) = length ps.
Proof using All.
  intros [Hinv H _ He]. unfold state_of. rewrite He.
  destruct (_reading (reader w)) eqn:Hr; [done|].
  destruct (_previous (reader w)) as [r|] eqn:Hprev; [|done].
  destruct (no_more_results (reader w)) eqn:Hno; [|done].
  destruct (ended w); [|done]. intros _.
  assert (pending w = []) as Hp.
  { destruct (pending w) eqn:E; [done|].
    destruct (outstanding_call w _ _ Hinv E) as (_ & ? & _). congruence. }
  split; [done|].
  destruct (hist_previous _ _ _ _ _ H Hp He) as [Hcur Hres].
  destruct (length (calls w)) as [|n] eqn:Hlen.
  - cbn in Hcur. congruence.
  - destruct (Hres n eq_refl) as [r' Hr'].
    cbn in Hcur. rewrite Hr' in Hcur. rewrite Hprev in Hcur. injection Hcur as ->.
    assert (n < length ps) as Hn by (apply (calls_within w); [done|lia]).
    destruct (lookup_lt_is_Some_2 ps n Hn) as [rn Hrn].
    rewrite (ps_served n rn Hrn) in Hr'. injection Hr' as <-.
    destruct (decide (S n < length ps)) as [Hlt|Hge]; [|lia].
    apply (ps_keys n rn Hrn) in Hlt as [key Hkey].
    unfold no_more_results in Hno. rewrite Hprev, Hkey in Hno. done.
Qed.

(** X7. When the provider serves a finite scan (every page but the last
    with a start key), a consumer that keeps asking gets every record of
    every page, in order, whatever the stream answers to the pushes: with
    fuel for two actions per page and two more, the loop ends exhausted with
    nothing left to do, one call made per page, and [_scanned] the number of
    records of the scan. *)
Theorem finite_scan_is_delivered (fuel : nat) :
  2 * length ps + 2 <= fuel ->
  state_of (drive fuel initial) = Exhausted /\
  next_action (drive fuel initial) = None /\
  delivered (drive fuel initial) = flat_map results ps /\
  length (calls (drive fuel initial)) = length ps /\
  _scanned (reader (drive fuel initial)) = length (flat_map results ps).
Proof using All.
  intros Hfuel.
  destruct (drive_ends fuel initial sound_initial) as [Hs Hstate];
    [by rewrite remaining_initial|].
  destruct (exhausted_calls _ Hs Hstate) as [Hp Hlen].
  assert (delivered (drive fuel initial) = flat_map results ps) as Hd.
  { rewrite (hist_delivered _ _ _ _ _ (sound_history _ Hs)).
    unfold resolved_count. rewrite Hp, (sound_quiet _ Hs), Hlen.
    apply flat_map_seq_lookup. intros i r Hi. unfold page_at.
    by rewrite (ps_served i r Hi). }
  split; [done|]. split.
  - pose proof (progress _ Hs) as Hprog.
    destruct (next_action (drive fuel initial)) as [a|] eqn:E; [|done].
    exfalso. unfold next_action in E. rewrite Hp in E.
    destruct (sound_invariant _ Hs) as [_ _ Herr _].
    rewrite (sound_quiet _ Hs) in Herr. destruct Herr as [_ Ht].
    rewrite Ht, Hstate in E. done.
  - split; [done|]. split; [done|].
    rewrite <- Hd. apply (sound_counts _ Hs).
Qed.

End FiniteScan.

End Reader.

(** *** The scenarios of the specification, run *)

(** A provider that settles its calls as a script says, in order. *)
Definition scripted {Item StartKey Error : Type}
    (script : list (@Settlement Item StartKey Error))
    (n : nat) (previous : option (@Results Item StartKey)) :
    option (@Settlement Item StartKey Error) :=
  script !! n.

Definition page1 : @Results nat nat :=
  {| results := [1; 2; 3; 4; 5]; startKey := Some 10 |}.
Definition page2 : @Results nat nat :=
  {| results := []; startKey := Some 20 |}.
Definition page3 : @Results nat nat :=
  {| results := [6; 7; 8]; startKey := None |}.

Definition three_pages : nat -> option Results -> option (@Settlement nat nat string) :=
  scripted [Resolved page1; Resolved page2; Resolved page3].

Definition second_page_fails : nat -> option Results -> option (@Settlement nat nat string) :=
  scripted [Resolved page1; Rejected "ProvisionedThroughputExceededException"].

Definition accepting (n : nat) : bool := true.
Definition declining (n : nat) : bool := false.

Lemma three_pages_two_batches_witness :
  pushed (drive three_pages accepting 6 initial) =
  [Batch [1; 2; 3; 4; 5]; Batch [6; 7; 8]; Null].
Proof.
  apply (three_pages_two_batches three_pages accepting 1 2 3 4 5 6 7 8 10 20 0);
    reflexivity.
Defined.

(** The same pages to a stream that answers [false] to every push: the same
    chunks, after three calls of [_read]. *)
Example three_pages_declining :
  pushed (drive three_pages declining 6 initial) =
  [Batch [1; 2; 3; 4; 5]; Batch [6; 7; 8]; Null] /\
  drive three_pages declining 6 initial =
  run three_pages declining [Pull; Settle; Pull; Settle; Settle; Pull] initial.
Proof. split; reflexivity. Qed.

Lemma failed_fetch_is_terminal_witness :
  let w := run second_page_fails accepting [Pull; Settle] initial in
  let after := run second_page_fails accepting [Pull; Tick; Settle; Pull]
                 (settle second_page_fails accepting w) in
  pushed w = [Batch [1; 2; 3; 4; 5]] /\
  pushed after = [Batch [1; 2; 3; 4; 5]; Null] /\
  calls after = [None; Some page1] /\
  errors after = ["ProvisionedThroughputExceededException"].
Proof.
  intros w after.
  destruct (failed_fetch_is_terminal second_page_fails accepting w 1 (Some page1) []
              "ProvisionedThroughputExceededException" [Pull; Tick; Settle; Pull])
    as (_ & _ & _ & _ & _ & Hc & _ & Hp & _ & _ & He).
  - by exists [Pull; Settle].
  - reflexivity.
  - reflexivity.
  - split; [reflexivity|]. split; [exact Hp|]. split; [exact Hc|].
    apply He. right. left.
Defined.

Lemma declined_push_pauses_witness :
  let w := run three_pages declining [Pull] initial in
  let paused := settle three_pages declining w in
  state_of paused = Paused /\
  run three_pages declining [Settle; Tick; Settle] paused = paused /\
  calls (_read declining (run three_pages declining [Settle; Tick; Settle] paused)) =
    [None; Some page1].
Proof.
  intros w paused.
  destruct (declined_push_pauses three_pages declining w 0 None [] page1
              [Settle; Tick; Settle])
    as (Hs & _ & _ & _ & _ & Hrun & Hnext).
  - by exists [Pull].
  - reflexivity.
  - reflexivity.
  - discriminate.
  - reflexivity.
  - intros H. repeat (apply elem_of_cons in H as [H|H]; [discriminate|]).
    by apply not_elem_of_nil in H.
  - split; [exact Hs|]. split; [exact Hrun|].
    by destruct (Hnext 10 eq_refl) as [? _].
Defined.

Lemma read_is_guarded_witness :
  let w := run three_pages accepting [Pull] initial in
  state_of w = Reading /\ _read accepting w = w /\ length (pending w) = 1.
Proof.
  intros w.
  destruct (read_is_guarded three_pages accepting w) as (Hr & _ & _ & _ & _).
  - by exists [Pull].
  - split; [reflexivity|]. split; [by apply Hr|reflexivity].
Defined.

(** After the scan is exhausted, [_read] calls [push(null)] once more, on a
    stream that has ended already; nothing else happens. *)
Example read_after_exhaustion :
  let w := drive three_pages accepting 6 initial in
  state_of w = Exhausted /\
  pushed (_read accepting w) = pushed w ++ [Null] /\
  reader (_read accepting w) = reader w /\ calls (_read accepting w) = calls w.
Proof. repeat split. Qed.

(** *** The further properties, on the scenarios *)

(** The world after the three pages have been taken. *)
Definition scanned_world : World (Item := nat) (StartKey := nat) (Error := string) :=
  run three_pages accepting [Pull; Settle; Settle; Settle] initial.

Lemma scanned_world_reachable : reachable three_pages accepting scanned_world.
Proof. by exists [Pull; Settle; Settle; Settle]. Qed.

Lemma never_pushes_empty_batch_witness :
  Batch [6; 7; 8] ∈ pushed scanned_world /\ [6; 7; 8] <> @nil nat.
Proof.
  assert (Batch [6; 7; 8] ∈ pushed scanned_world) as Hin by (right; left).
  split; [exact Hin|].
  exact (never_pushes_empty_batch three_pages accepting scanned_world [6; 7; 8]
           scanned_world_reachable Hin).
Defined.

Lemma scanned_counts_delivered_witness :
  _scanned (reader scanned_world) = length (delivered scanned_world) /\
  delivered scanned_world = [1; 2; 3; 4; 5; 6; 7; 8].
Proof.
  split; [|reflexivity].
  exact (scanned_counts_delivered three_pages accepting scanned_world
           scanned_world_reachable).
Defined.

Lemma no_batch_after_null_witness :
  exists (bs : list (list nat)) (n : nat),
    pushed scanned_world = (Batch <$> bs) ++ replicate n Null.
Proof.
  exact (no_batch_after_null three_pages accepting scanned_world
           scanned_world_reachable).
Defined.

Lemma calls_are_chained_witness :
  exists cj r key,
    calls scanned_world !! 1 = Some cj /\
    three_pages 1 cj = Some (Resolved r) /\
    startKey r = Some key /\
    Some page2 = Some r.
Proof.
  exact (calls_are_chained three_pages accepting scanned_world 2 (Some page2)
           scanned_world_reachable eq_refl).
Defined.

Lemma delivers_resolved_pages_witness :
  delivered scanned_world =
  flat_map (page_at three_pages) (seq 0 (resolved_calls scanned_world)).
Proof.
  exact (delivers_resolved_pages three_pages accepting scanned_world
           scanned_world_reachable).
Defined.

Lemma taken_page_continues_or_ends_witness :
  let w := run three_pages accepting [Pull; Settle] initial in
  pushed (settle three_pages accepting w) = [Batch [1; 2; 3; 4; 5]] /\
  calls (settle three_pages accepting w) = [None; Some page1; Some page2] /\
  state_of (settle three_pages accepting w) = Reading.
Proof.
  intros w.
  destruct (taken_page_continues_or_ends three_pages accepting w 1 (Some page1) [] page2)
    as (_ & Hp & Hc & _ & Hs).
  - by exists [Pull; Settle].
  - reflexivity.
  - reflexivity.
  - by left.
  - split; [exact Hp|]. split; [exact Hc|exact Hs].
Defined.

Lemma finite_scan_is_delivered_witness :
  state_of (drive three_pages declining 8 initial) = Exhausted /\
  delivered (drive three_pages declining 8 initial) = [1; 2; 3; 4; 5; 6; 7; 8].
Proof.
  destruct (finite_scan_is_delivered three_pages declining [page1; page2; page3])
    with (fuel := 8) as (Hs & _ & Hd & _).
  - discriminate.
  - intros [|[|[|i]]] r; cbn; intros [= <-]; reflexivity.
  - intros [|[|[|i]]] r; cbn; intros [= <-]; cbn;
      (split; intros H; first [lia | by eexists | by destruct H as [? [=]]]).
  - cbn. lia.
  - split; [exact Hs|exact Hd].
Defined.

End ScanReader.

(** ** The provider facade

    [DynamoProvider.start] builds its promise chain once and hands out the
    same promise ever after. Promises are numbered in the order they are
    created; a reaction is what [then] or [catch] registers on a promise; a
    turn of the microtask queue runs the first reaction whose promise has
    settled. *)

Module Provider.

Record Configuration := {
  region : string;
  prefix : string;
  apiVersion : option string
}.

(** What a promise of the chain is settled with. *)
Inductive Value :=
| Undefined
| Bool (b : bool).

Inductive PromiseState :=
| Pending
| Fulfilled (v : Value)
| Rejected (e : string).

(** The three callbacks of [start], in the order of the chain. *)
Inductive Handler :=
| InitializeSdk
| MarkStarted
| LogAndRethrow.

Record Reaction := {
  source : nat;
  onFulfilled : option Handler;
  onRejected : option Handler;
  target : nat
}.

Section Facade.

(** The client object of the SDK, and its constructor
    [new aws.DynamoDB({apiVersion})] after [aws.config.update({region})],
    which may throw. *)
Context {Client : Type}.
Variable aws_DynamoDB : string -> string -> Completion Client.

Record DynamoProvider := {
  _configuration : Configuration;
  _startPromise : option nat;
  _started : bool;
  _dynamo : option Client;
  _disposed : bool
}.

Record World := {
  provider : DynamoProvider;
  promises : list PromiseState;
  reactions : list Reaction;
  sdk_initializations : nat
}.

(** [new DynamoProvider(configuration)] *)
Definition new (configuration : Configuration) : World :=
  {| provider := {| _configuration := configuration; _startPromise := None;
                    _started := false; _dynamo := None; _disposed := false |};
     promises := []; reactions := []; sdk_initializations := 0 |}.

Definition with_provider (f : DynamoProvider -> DynamoProvider) (w : World) : World :=
  {| provider := f (provider w); promises := promises w;
     reactions := reactions w; sdk_initializations := sdk_initializations w |}.

Definition set_startPromise (p : option nat) (d : DynamoProvider) : DynamoProvider :=
  {| _configuration := _configuration d; _startPromise := p; _started := _started d;
     _dynamo := _dynamo d; _disposed := _disposed d |}.

Definition set_started (b : bool) (d : DynamoProvider) : DynamoProvider :=
  {| _configuration := _configuration d; _startPromise := _startPromise d; _started := b;
     _dynamo := _dynamo d; _disposed := _disposed d |}.

Definition set_dynamo (c : option Client) (d : DynamoProvider) : DynamoProvider :=
  {| _configuration := _configuration d; _startPromise := _startPromise d;
     _started := _started d; _dynamo := c; _disposed := _disposed d |}.

Definition set_disposed (b : bool) (d : DynamoProvider) : DynamoProvider :=
  {| _configuration := _configuration d; _startPromise := _startPromise d;
     _started := _started d; _dynamo := _dynamo d; _disposed := b |}.

(** A new promise in state [st]; its number is returned. *)
Definition new_promise (st : PromiseState) (w : World) : nat * World :=
  (length (promises w),
   {| provider := provider w; promises := promises w ++ [st];
      reactions := reactions w; sdk_initializations := sdk_initializations w |}).

(** [p.then(f)] and [p.catch(h)]: a pending promise, settled by the reaction. *)
Definition register (p : nat) (f h : option Handler) (w : World) : nat * World :=
  let (q, w1) := new_promise Pending w in
  (q, {| provider := provider w1; promises := promises w1;
         reactions := reactions w1 ++
           [{| source := p; onFulfilled := f; onRejected := h; target := q |}];
         sdk_initializations := sdk_initializations w1 |}).

(** [this._configuration.apiVersion || '2012-08-10'] *)
Definition api_version (c : Configuration) : string :=
  match apiVersion c with
  | Some v => if String.eqb v "" then "2012-08-10" else v
  | None => "2012-08-10"
  end.

(** [start()] *)
Definition start (w : World) : Completion nat * World :=
  if _disposed (provider w) then (Throw "The Dynamo Provider has been disposed.", w)
  else
    match _startPromise (provider w) with
    | Some p => (Normal p, w)
    | None =>
        let (p0, w0) := new_promise (Fulfilled Undefined) w in
        let (p1, w1) := register p0 (Some InitializeSdk) None w0 in
        let (p2, w2) := register p1 (Some MarkStarted) None w1 in
        let (p3, w3) := register p2 None (Some LogAndRethrow) w2 in
        (Normal p3, with_provider (set_startPromise (Some p3)) w3)
    end.

(** [dispose()] of [Disposable]. *)
Definition dispose (w : World) : World := with_provider (set_disposed true) w.

(** A callback of the chain runs on the value or the error it is given. *)
Definition run_handler (h : Handler) (arg : PromiseState) (w : World) : PromiseState * World :=
  match h with
  | InitializeSdk =>
      let w1 := {| provider := provider w; promises := promises w;
                   reactions := reactions w;
                   sdk_initializations := S (sdk_initializations w) |} in
      match aws_DynamoDB (region (_configuration (provider w)))
                         (api_version (_configuration (provider w))) with
      | Normal client => (Fulfilled Undefined, with_provider (set_dynamo (Some client)) w1)
      | Throw e => (Rejected e, w1)
      end
  | MarkStarted => (Fulfilled (Bool true), with_provider (set_started true) w)
  | LogAndRethrow => (match arg with Rejected e => Rejected e | _ => arg end, w)
  end.

Definition settle_promise (p : nat) (st : PromiseState) (w : World) : World :=
  {| provider := provider w; promises := <[p := st]> (promises w);
     reactions := reactions w; sdk_initializations := sdk_initializations w |}.

(** The first reaction whose promise has settled, with that state, and the
    reactions that stay registered. *)
Fixpoint take_ready (ps : list PromiseState) (rs : list Reaction)
    : option (Reaction * PromiseState * list Reaction) :=
  match rs with
  | [] => None
  | r :: rest =>
      match ps !! source r with
      | Some (Fulfilled v) => Some (r, Fulfilled v, rest)
      | Some (Rejected e) => Some (r, Rejected e, rest)
      | _ =>
          match take_ready ps rest with
          | Some (r', st, rest') => Some (r', st, r :: rest')
          | None => None
          end
      end
  end.

(** One turn of the microtask queue. A reaction without a callback for the
    state of its promise passes that state on. *)
Definition turn (w : World) : World :=
  match take_ready (promises w) (reactions w) with
  | None => w
  | Some (r, st, rest) =>
      let w1 := {| provider := provider w; promises := promises w;
                   reactions := rest; sdk_initializations := sdk_initializations w |} in
      let callback :=
        match st with
        | Fulfilled _ => onFulfilled r
        | Rejected _ => onRejected r
        | Pending => None
        end in
      match callback with
      | Some h => let (st', w2) := run_handler h st w1 in settle_promise (target r) st' w2
      | None => settle_promise (target r) st w1
      end
  end.

Inductive Action := Start | Turn.

(** A run of the program: the results of its calls of [start], in order, and
    the world it ends in. *)
Fixpoint run (acts : list Action) (w : World) : list (Completion nat) * World :=
  match acts with
  | [] => ([], w)
  | Start :: rest =>
      let (r, w1) := start w in
      let (rs, w2) := run rest w1 in (r :: rs, w2)
  | Turn :: rest => run rest (turn w)
  end.

(** The reactions that may initialise the SDK when they run. *)
Definition initializes (r : Reaction) : bool :=
  match onFulfilled r, onRejected r with
  | Some InitializeSdk, _ | _, Some InitializeSdk => true
  | _, _ => false
  end.

Definition initializations_left (rs : list Reaction) : nat :=
  length (List.filter initializes rs).

(** What holds of a provider that has not been disposed. *)
Record invariant (w : World) : Prop := {
  inv_live : _disposed (provider w) = false;
  inv_once : sdk_initializations w + initializations_left (reactions w) <= 1;
  inv_fresh : _startPromise (provider w) = None ->
              reactions w = [] /\ sdk_initializations w = 0
}.

Lemma invariant_new (configuration : Configuration) : invariant (new configuration).
Proof. split; cbn; [done|lia|done]. Qed.

Lemma start_spec (w : World) (r : Completion nat) (w' : World) :
  invariant w -> start w = (r, w') ->
  invariant w' /\
  (exists p, _startPromise (provider w') = Some p /\ r = Normal p) /\
  (forall p, _startPromise (provider w) = Some p -> w' = w).
Proof.
  intros [Hlive Honce Hfresh]. unfold start. rewrite Hlive.
  destruct (_startPromise (provider w)) as [p|] eqn:Hsp.
  - intros [= <- <-]. split; [split; [done|done|intros H; congruence]|].
    split; [by exists p|done].
  - destruct (Hfresh eq_refl) as [Hrs Hsdk]. cbn. intros [= <- <-].
    split; [|split; [by eexists|done]].
    split; cbn; [done| |done].
    rewrite Hrs, Hsdk. cbn. lia.
Qed.

Lemma take_ready_spec (ps : list PromiseState) (rs rest : list Reaction)
    (r : Reaction) (st : PromiseState) :
  take_ready ps rs = Some (r, st, rest) ->
  st <> Pending /\
  initializations_left rs =
  (if initializes r then 1 else 0) + initializations_left rest.
Proof.
  revert rest. induction rs as [|r0 rs IH]; intros rest; cbn [take_ready]; [done|].
  assert (forall rest',
    initializations_left (r0 :: rest') =
    (if initializes r0 then 1 else 0) + initializations_left rest') as Hcons.
  { intros rest'. unfold initializations_left. cbn. by destruct (initializes r0). }
  destruct (ps !! source r0) as [[|v|e]|] eqn:Hsrc.
  - destruct (take_ready ps rs) as [[[r' st'] rest']|]; [|done].
    intros [= -> -> <-]. destruct (IH rest' eq_refl) as [Hst Hn].
    split; [done|]. rewrite !Hcons, Hn. lia.
  - intros [= <- <- <-]. split; [done|]. apply Hcons.
  - intros [= <- <- <-]. split; [done|]. apply Hcons.
  - destruct (take_ready ps rs) as [[[r' st'] rest']|]; [|done].
    intros [= -> -> <-]. destruct (IH rest' eq_refl) as [Hst Hn].
    split; [done|]. rewrite !Hcons, Hn. lia.
Qed.

Ltac close_turn Hsome :=
  split; [split; cbn;
          [ done
          | unfold initializations_left in *; lia
          | intros H; by destruct (Hsome H) ]
         | done].

Lemma turn_spec (w : World) :
  invariant w ->
  invariant (turn w) /\
  _startPromise (provider (turn w)) = _startPromise (provider w).
Proof.
  intros [Hlive Honce Hfresh]. unfold turn.
  destruct (take_ready (promises w) (reactions w)) as [[[r st] rest]|] eqn:Hready;
    [|by split].
  destruct (take_ready_spec _ _ _ _ _ Hready) as [Hst Hn].
  assert (_startPromise (provider w) <> None) as Hsome.
  { intros H. destruct (Hfresh H) as [Hrs _]. rewrite Hrs in Hready. done. }
  rewrite Hn in Honce.
  assert (forall h, (onFulfilled r = Some h \/ onRejected r = Some h) ->
          h = InitializeSdk -> initializes r = true) as Hinit.
  { intros h [H|H] ->; unfold initializes; rewrite H; [done|].
    by destruct (onFulfilled r) as [[]|]. }
  assert (sdk_initializations w + initializations_left rest <= 1) as Hrest by lia.
  destruct st as [|v|e]; [done| |].
  - destruct (onFulfilled r) as [h|] eqn:Hf; [|close_turn Hsome].
    destruct h; cbn.
    + rewrite (Hinit InitializeSdk (or_introl eq_refl) eq_refl) in Honce.
      destruct (aws_DynamoDB _ _); close_turn Hsome.
    + close_turn Hsome.
    + close_turn Hsome.
  - destruct (onRejected r) as [h|] eqn:Hf; [|close_turn Hsome].
    destruct h; cbn.
    + rewrite (Hinit InitializeSdk (or_intror eq_refl) eq_refl) in Honce.
      destruct (aws_DynamoDB _ _); close_turn Hsome.
    + close_turn Hsome.
    + close_turn Hsome.
Qed.

Lemma run_spec (acts : list Action) (w : World) :
  invariant w ->
  invariant (run acts w).2 /\
  (forall p, _startPromise (provider w) = Some p ->
             _startPromise (provider (run acts w).2) = Some p) /\
  (forall r, r ∈ (run acts w).1 ->
             exists p, _startPromise (provider (run acts w).2) = Some p /\ r = Normal p).
Proof.
  revert w. induction acts as [|a acts IH]; intros w Hinv.
  - cbn. split; [done|]. split; [done|]. intros r Hr. by apply not_elem_of_nil in Hr.
  - destruct a; cbn.
    + destruct (start w) as [r w1] eqn:Hstart.
      destruct (start_spec w r w1 Hinv Hstart) as (Hinv1 & (p1 & Hp1 & ->) & Hsame).
      destruct (IH w1 Hinv1) as (Hinv2 & Hkeep & Hrets).
      destruct (run acts w1) as [rs w2] eqn:Hrun. cbn in *.
      split; [done|]. split.
      * intros p Hp. apply Hkeep. by rewrite (Hsame p Hp).
      * intros r Hr. apply elem_of_cons in Hr as [->|Hr]; [|by apply Hrets].
        exists p1. split; [by apply Hkeep|done].
    + destruct (turn_spec w Hinv) as [Hinv1 Hsp].
      destruct (IH (turn w) Hinv1) as (Hinv2 & Hkeep & Hrets).
      split; [done|]. split; [|done].
      intros p Hp. apply Hkeep. by rewrite Hsp.
Qed.

(** *** The claim about [start] *)

(** C9. On a provider that is not disposed, however calls of [start] and
    turns of the microtask queue follow each other, the SDK is initialised at
    most once, and every call of [start] returns the promise that the first
    call returned. *)
Theorem start_is_idempotent (configuration : Configuration) (acts : list Action) :
  sdk_initializations (run acts (new configuration)).2 <= 1 /\
  _disposed (provider (run acts (new configuration)).2) = false /\
  (exists p, forall r, r ∈ (run acts (new configuration)).1 -> r = Normal p) /\
  (forall first r, (run acts (new configuration)).1 !! 0 = Some first ->
                   r ∈ (run acts (new configuration)).1 -> r = first).
Proof.
  destruct (run_spec acts (new configuration) (invariant_new configuration))
    as ([Hlive Honce _] & _ & Hrets).
  split; [lia|]. split; [done|].
  assert (forall r1 r2, r1 ∈ (run acts (new configuration)).1 ->
                        r2 ∈ (run acts (new configuration)).1 -> r1 = r2) as Hsame.
  { intros r1 r2 H1 H2.
    destruct (Hrets r1 H1) as (p1 & Hp1 & ->).
    destruct (Hrets r2 H2) as (p2 & Hp2 & ->). congruence. }
  split.
  - destruct ((run acts (new configuration)).1) as [|r0 rs] eqn:E.
    + exists 0. intros r Hr. by apply not_elem_of_nil in Hr.
    + destruct (Hrets r0) as (p & _ & ->); [by left|].
      exists p. intros r Hr. apply Hsame; [done|by left].
  - intros first r Hfirst Hr. apply Hsame; [done|].
    by apply list_elem_of_lookup_2 in Hfirst.
Qed.

(** *** The course of [start]

    After the first call of [start], the world is decided by the number of
    turns the microtask queue has taken since: [stage n] after [n] turns. *)

Definition started_world (configuration : Configuration) : World :=
  (start (new configuration)).2.

Definition stage (configuration : Configuration) (n : nat) : World :=
  Nat.iter n turn (started_world configuration).

Fixpoint count_turns (acts : list Action) : nat :=
  match acts with
  | [] => 0
  | Start :: rest => count_turns rest
  | Turn :: rest => S (count_turns rest)
  end.

(** The actions after the first call of [start], if there is one. *)
Fixpoint after_first_start (acts : list Action) : option (list Action) :=
  match acts with
  | [] => None
  | Start :: rest => Some rest
  | Turn :: rest => after_first_start rest
  end.

Lemma stage_spec (configuration : Configuration) (n : nat) :
  invariant (stage configuration n) /\
  _startPromise (provider (stage configuration n)) = Some 3.
Proof.
  induction n as [|n [Hinv Hsp]].
  - destruct (start_spec (new configuration) (Normal 3) (started_world configuration)
                (invariant_new configuration) eq_refl) as (Hinv & _ & _).
    by split.
  - change (stage configuration (S n)) with (turn (stage configuration n)).
    destruct (turn_spec (stage configuration n) Hinv) as [Hinv' Hsp'].
    split; [done|]. by rewrite Hsp'.
Qed.

Lemma run_stage (configuration : Configuration) (acts : list Action) (n : nat) :
  (run acts (stage configuration n)).2 = stage configuration (n + count_turns acts).
Proof.
  revert n. induction acts as [|a acts IH]; intros n; cbn.
  - by rewrite Nat.add_0_r.
  - destruct a.
    + destruct (stage_spec configuration n) as [[Hlive _ _] Hsp].
      unfold start. rewrite Hlive, Hsp.
      specialize (IH n). destruct (run acts (stage configuration n)). exact IH.
    + change (turn (stage configuration n)) with (stage configuration (S n)).
      rewrite IH. f_equal. lia.
Qed.

Lemma run_new (configuration : Configuration) (acts : list Action) :
  (run acts (new configuration)).2 =
  match after_first_start acts with
  | None => new configuration
  | Some rest => stage configuration (count_turns rest)
  end.
Proof.
  induction acts as [|a acts IH]; [done|]. destruct a.
  - cbn [run after_first_start].
    destruct (start (new configuration)) as [r w1] eqn:Hst.
    assert (w1 = stage configuration 0) as ->
      by (unfold stage, started_world; by rewrite Hst).
    pose proof (run_stage configuration acts 0) as H.
    destruct (run acts (stage configuration 0)) as [rs w2]. exact H.
  - exact IH.
Qed.

Lemma turn_idle (w : World) : reactions w = [] -> turn w = w.
Proof. intros H. unfold turn. by rewrite H. Qed.

(** What the chain has done after three turns. *)
Lemma stage_3 (configuration : Configuration) :
  let w := stage configuration 3 in
  reactions w = [] /\ sdk_initializations w = 1 /\
  match aws_DynamoDB (region configuration) (api_version configuration) with
  | Normal client =>
      promises w !! 3 = Some (Fulfilled (Bool true)) /\
      _started (provider w) = true /\ _dynamo (provider w) = Some client
  | Throw e =>
      promises w !! 3 = Some (Rejected e) /\
      _started (provider w) = false /\ _dynamo (provider w) = None
  end.
Proof.
  unfold stage, started_world. cbn.
  destruct (aws_DynamoDB (region configuration) (api_version configuration)); by cbn.
Qed.

(** Further turns change nothing. *)
Lemma stage_settled (configuration : Configuration) (n : nat) :
  stage configuration (3 + n) = stage configuration 3.
Proof.
  induction n as [|n IH]; [done|].
  replace (3 + S n) with (S (3 + n)) by lia.
  change (stage configuration (S (3 + n))) with (turn (stage configuration (3 + n))).
  rewrite IH. apply turn_idle. by destruct (stage_3 configuration) as [? _].
Qed.

(** X8. Once [start] has been called and the microtask queue has taken three
    turns, the promise it returned is settled: fulfilled with [true], with
    the client created and [_started] set, when the SDK constructor returns;
    rejected with the error of the constructor, with no client and
    [_started] unset, when it throws. Nothing is left in the queue, and the
    SDK was initialised once. The constructor is given the region of the
    configuration and its API version, or [2012-08-10] when that is missing
    or empty. *)
Theorem start_settles (configuration : Configuration) (acts rest : list Action) :
  after_first_start acts = Some rest ->
  3 <= count_turns rest ->
  reactions (run acts (new configuration)).2 = [] /\
  sdk_initializations (run acts (new configuration)).2 = 1 /\
  match aws_DynamoDB (region configuration) (api_version configuration) with
  | Normal client =>
      promises (run acts (new configuration)).2 !! 3 = Some (Fulfilled (Bool true)) /\
      _started (provider (run acts (new configuration)).2) = true /\
      _dynamo (provider (run acts (new configuration)).2) = Some client
  | Throw e =>
      promises (run acts (new configuration)).2 !! 3 = Some (Rejected e) /\
      _started (provider (run acts (new configuration)).2) = false /\
      _dynamo (provider (run acts (new configuration)).2) = None
  end.
Proof.
  intros Hrest Hturns. rewrite run_new, Hrest.
  replace (count_turns rest) with (3 + (count_turns rest - 3)) by lia.
  rewrite stage_settled. apply stage_3.
Qed.

Lemma turn_dispose (w : World) : turn (dispose w) = dispose (turn w).
Proof.
  unfold turn, dispose. cbn.
  destruct (take_ready (promises w) (reactions w)) as [[[r st] rest]|]; [|done].
  destruct st as [|v|e]; cbn; [done| |].
  - destruct (onFulfilled r) as [[]|]; cbn; try done.
    by destruct (aws_DynamoDB _ _).
  - destruct (onRejected r) as [[]|]; cbn; try done.
    by destruct (aws_DynamoDB _ _).
Qed.

(** X9. [dispose] does not cancel a start that is under way: the turns of the
    chain do to a disposed provider what they would have done to it
    otherwise (the client is still created, [_started] still set), while
    [start] itself throws from then on. *)
Theorem dispose_does_not_cancel_start (w : World) (n : nat) :
  Nat.iter n turn (dispose w) = dispose (Nat.iter n turn w) /\
  start (dispose (Nat.iter n turn w)) =
    (Throw "The Dynamo Provider has been disposed.", dispose (Nat.iter n turn w)).
Proof.
  split; [|done].
  induction n as [|n IH]; [done|].
  by rewrite !Nat.iter_succ, IH, turn_dispose.
Qed.

(** *** [getTables]

    [listTables] of the client calls back with an error or with a page of
    table names and, when more pages follow, the name to start the next page
    after. *)

Record ListTablesOutput := {
  TableNames : list string;
  LastEvaluatedTableName : option string
}.

Variable listTables : Client -> option string -> Completion ListTablesOutput.

(** How the promise of [getTables] ends: fulfilled, rejected, or never
    settled. *)
Inductive Outcome :=
| Fulfills (names : list string)
| Rejects (reason : string)
| Unsettled.

(** [options.ExclusiveStartTableName], set under
    [if (previous && is.string(previous))]. *)
Definition start_name (previous : option string) : option string :=
  match previous with
  | Some p => if String.eqb p "" then None else Some p
  | None => None
  end.

(** [getTablesRecursive(previous)]. The promise of the next page is given a
    callback for its value only: when it is rejected, the promise of this
    page is never settled. [None]: the fuel ran out. *)
Fixpoint getTablesRecursive (fuel : nat) (client : Client) (table_prefix : string)
    (previous : option string) : option Outcome :=
  match fuel with
  | 0 => None
  | S fuel' =>
      match listTables client (start_name previous) with
      | Throw error => Some (Rejects "Failed to retrieve DynamoDB tables")
      | Normal data =>
          let matches := List.filter (String.prefix table_prefix) (TableNames data) in
          match LastEvaluatedTableName data with
          | Some last =>
              match getTablesRecursive fuel' client table_prefix (Some last) with
              | Some (Fulfills more) => Some (Fulfills (matches ++ more))
              | Some (Rejects _) => Some Unsettled
              | Some Unsettled => Some Unsettled
              | None => None
              end
          | None => Some (Fulfills matches)
          end
      end
  end.

(** [getTables()], on the provider as it is when the first callback runs. *)
Definition getTables (fuel : nat) (d : DynamoProvider) : option Outcome :=
  if _disposed d then Some (Rejects "The Dynamo Provider has been disposed.")
  else if negb (_started d) then Some (Rejects "The Dynamo Provider has not been started.")
  else
    match _dynamo d with
    | Some client => getTablesRecursive fuel client (prefix (_configuration d)) None
    | None => Some (Rejects "TypeError: Cannot read properties of null")
    end.

(** The service answers the calls from [previous] on with the pages given,
    the last of which names no table to go on from. *)
Inductive serves (client : Client) : option string -> list ListTablesOutput -> Prop :=
| serves_last previous data :
    listTables client (start_name previous) = Normal data ->
    LastEvaluatedTableName data = None ->
    serves client previous [data]
| serves_more previous data last rest :
    listTables client (start_name previous) = Normal data ->
    LastEvaluatedTableName data = Some last ->
    serves client (Some last) rest ->
    serves client previous (data :: rest).

(** The service answers with the pages given, and the call after them
    fails. *)
Inductive fails_after (client : Client) : option string -> list ListTablesOutput -> Prop :=
| fails_now previous error :
    listTables client (start_name previous) = Throw error ->
    fails_after client previous []
| fails_later previous data last rest :
    listTables client (start_name previous) = Normal data ->
    LastEvaluatedTableName data = Some last ->
    fails_after client (Some last) rest ->
    fails_after client previous (data :: rest).

Lemma getTablesRecursive_serves (client : Client) (table_prefix : string)
    (previous : option string) (pages : list ListTablesOutput) (fuel : nat) :
  serves client previous pages -> length pages <= fuel ->
  getTablesRecursive fuel client table_prefix previous =
  Some (Fulfills (List.filter (String.prefix table_prefix) (flat_map TableNames pages))).
Proof.
  intros Hserves. revert fuel.
  induction Hserves as [previous data Hcall Hlast
                       |previous data last rest Hcall Hlast _ IH]; intros fuel Hfuel.
  - destruct fuel as [|fuel]; [cbn in Hfuel; lia|]. cbn.
    by rewrite Hcall, Hlast, app_nil_r.
  - destruct fuel as [|fuel]; [cbn in Hfuel; lia|]. cbn in *.
    rewrite Hcall, Hlast, IH by lia. by rewrite List.filter_app.
Qed.

Lemma getTablesRecursive_fails (client : Client) (table_prefix : string)
    (previous : option string) (pages : list ListTablesOutput) (fuel : nat) :
  fails_after client previous pages -> length pages < fuel ->
  getTablesRecursive fuel client table_prefix previous =
  Some (match pages with
        | [] => Rejects "Failed to retrieve DynamoDB tables"
        | _ :: _ => Unsettled
        end).
Proof.
  intros Hfails. revert fuel.
  induction Hfails as [previous error Hcall
                      |previous data last rest Hcall Hlast _ IH]; intros fuel Hfuel.
  - destruct fuel as [|fuel]; [lia|]. cbn. by rewrite Hcall.
  - destruct fuel as [|fuel]; [cbn in Hfuel; lia|]. cbn in *.
    rewrite Hcall, Hlast, IH by lia. by destruct rest.
Qed.

(** X10. On a started provider, [getTables] is fulfilled with the names of
    every page that begin with the prefix of the configuration, in the order
    of the pages and of the names in them: each page is asked for with the
    last name of the page before, and nothing else is returned. *)
Theorem getTables_lists_every_page (d : DynamoProvider) (client : Client)
    (pages : list ListTablesOutput) (fuel : nat) :
  _disposed d = false -> _started d = true -> _dynamo d = Some client ->
  serves client None pages ->
  length pages <= fuel ->
  getTables fuel d =
    Some (Fulfills (List.filter (String.prefix (prefix (_configuration d)))
                      (flat_map TableNames pages))).
Proof.
  intros Hlive Hstarted Hclient Hserves Hfuel.
  unfold getTables. rewrite Hlive, Hstarted, Hclient. cbn.
  by apply getTablesRecursive_serves.
Qed.

(** X11. When the first call of [listTables] fails, [getTables] is rejected,
    with a fixed message and not with the error of the service. When a later
    call fails, the promise of [getTables] is never settled: neither
    fulfilled with the names found so far, nor rejected. *)
Theorem getTables_failure (d : DynamoProvider) (client : Client)
    (pages : list ListTablesOutput) (fuel : nat) :
  _disposed d = false -> _started d = true -> _dynamo d = Some client ->
  fails_after client None pages ->
  length pages < fuel ->
  getTables fuel d =
    Some (match pages with
          | [] => Rejects "Failed to retrieve DynamoDB tables"
          | _ :: _ => Unsettled
          end).
Proof.
  intros Hlive Hstarted Hclient Hfails Hfuel.
  unfold getTables. rewrite Hlive, Hstarted, Hclient. cbn.
  by apply getTablesRecursive_fails.
Qed.

(** X12. On a provider that has not been disposed, whatever calls of [start]
    and turns came before: while [_started] is unset, [getTables] is rejected
    for want of a start and [listTables] is not called; once it is set, the
    client is there (the one the SDK constructor returned) and [getTables]
    goes to the service with it. *)
Theorem getTables_needs_start (configuration : Configuration) (acts : list Action)
    (fuel : nat) :
  if _started (provider (run acts (new configuration)).2)
  then exists client,
         aws_DynamoDB (region configuration) (api_version configuration) = Normal client /\
         _dynamo (provider (run acts (new configuration)).2) = Some client /\
         getTables fuel (provider (run acts (new configuration)).2) =
           getTablesRecursive fuel client (prefix configuration) None
  else getTables fuel (provider (run acts (new configuration)).2) =
         Some (Rejects "The Dynamo Provider has not been started.").
Proof.
  rewrite run_new. destruct (after_first_start acts) as [rest|]; [|done].
  assert (forall n,
    if _started (provider (stage configuration n))
    then exists client,
           aws_DynamoDB (region configuration) (api_version configuration) = Normal client /\
           _dynamo (provider (stage configuration n)) = Some client /\
           getTables fuel (provider (stage configuration n)) =
             getTablesRecursive fuel client (prefix configuration) None
    else getTables fuel (provider (stage configuration n)) =
           Some (Rejects "The Dynamo Provider has not been started.")) as H;
    [|apply H].
  intros [|[|[|n]]].
  - done.
  - unfold stage, started_world. cbn.
    by destruct (aws_DynamoDB (region configuration) (api_version configuration)).
  - unfold stage, started_world. cbn.
    destruct (aws_DynamoDB (region configuration) (api_version configuration)) eqn:E;
      cbn; [by eexists|done].
  - change (S (S (S n))) with (3 + n). rewrite (stage_settled configuration n).
    unfold stage, started_world. cbn.
    destruct (aws_DynamoDB (region configuration) (api_version configuration)) eqn:E;
      cbn; [by eexists|done].
Qed.

End Facade.

(** *** Runs of [start] *)

Definition configuration : Configuration :=
  {| region := "us-east-1"; prefix := "orders-"; apiVersion := None |}.

(** An SDK whose client constructor returns, and one whose constructor throws. *)
Definition working_sdk (region version : string) : Completion string :=
  Normal ("DynamoDB " ++ version ++ " in " ++ region)%string.

Definition broken_sdk (region version : string) : Completion string :=
  Throw "ConfigError: Missing region in config".

(** Three calls of [start] around the three turns of the chain: one promise,
    one initialisation, and the promise is fulfilled with [true]. *)
Example start_three_times :
  let (results, w) := run working_sdk [Start; Start; Turn; Turn; Turn; Start]
                        (new configuration) in
  results = [Normal 3; Normal 3; Normal 3] /\
  sdk_initializations w = 1 /\
  _started (provider w) = true /\
  _dynamo (provider w) = Some "DynamoDB 2012-08-10 in us-east-1" /\
  promises w !! 3 = Some (Fulfilled (Bool true)).
Proof. vm_compute. repeat split. Qed.

(** When the SDK throws, the promise is rejected with the error, and a later
    call of [start] returns that promise: the initialisation is not tried
    again. *)
Example start_after_failure :
  let (results, w) := run broken_sdk [Start; Turn; Turn; Turn; Start; Turn]
                        (new configuration) in
  results = [Normal 3; Normal 3] /\
  sdk_initializations w = 1 /\
  _started (provider w) = false /\
  promises w !! 3 = Some (Rejected "ConfigError: Missing region in config").
Proof. vm_compute. repeat split. Qed.

Example start_after_dispose :
  (start (dispose (new (Client := string) configuration))).1 =
  Throw "The Dynamo Provider has been disposed.".
Proof. reflexivity. Qed.

(** A provider whose start has run to its end. *)
Definition settled_world : World :=
  (run working_sdk [Turn; Start; Turn; Start; Turn; Turn] (new configuration)).2.

Definition started_provider : DynamoProvider := provider settled_world.

Lemma start_settles_witness :
  reactions settled_world = [] /\
  sdk_initializations settled_world = 1 /\
  promises settled_world !! 3 = Some (Fulfilled (Bool true)) /\
  _started (provider settled_world) = true /\
  _dynamo (provider settled_world) = Some "DynamoDB 2012-08-10 in us-east-1".
Proof.
  pose proof (start_settles working_sdk configuration
                [Turn; Start; Turn; Start; Turn; Turn] [Turn; Start; Turn; Turn]
                eq_refl) as H.
  apply H. cbn. lia.
Defined.

(** A service with two pages of table names, and one whose second call
    fails. *)
Definition first_page : ListTablesOutput :=
  {| TableNames := ["orders-eu"; "quotes-eu"; "orders-us"];
     LastEvaluatedTableName := Some "orders-us" |}.

Definition second_page : ListTablesOutput :=
  {| TableNames := ["users"; "orders-asia"]; LastEvaluatedTableName := None |}.

Definition two_pages (client : string) (start : option string) :
    Completion ListTablesOutput :=
  match start with
  | None => Normal first_page
  | Some _ => Normal second_page
  end.

Definition second_call_fails (client : string) (start : option string) :
    Completion ListTablesOutput :=
  match start with
  | None => Normal first_page
  | Some _ => Throw "ProvisionedThroughputExceededException"
  end.

Definition unreachable_service (client : string) (start : option string) :
    Completion ListTablesOutput :=
  Throw "NetworkingError".

Lemma getTables_lists_every_page_witness :
  getTables two_pages 2 started_provider =
  Some (Fulfills ["orders-eu"; "orders-us"; "orders-asia"]).
Proof.
  apply (getTables_lists_every_page two_pages started_provider
           "DynamoDB 2012-08-10 in us-east-1" [first_page; second_page] 2);
    try reflexivity.
  - eapply serves_more; [reflexivity..|]. by apply serves_last.
Defined.

Lemma getTables_failure_witness :
  getTables unreachable_service 1 started_provider =
    Some (Rejects "Failed to retrieve DynamoDB tables") /\
  getTables second_call_fails 2 started_provider = Some Unsettled.
Proof.
  split.
  - apply (getTables_failure unreachable_service started_provider
             "DynamoDB 2012-08-10 in us-east-1" [] 1); try reflexivity.
    + by eapply fails_now.
    + cbn. lia.
  - apply (getTables_failure second_call_fails started_provider
             "DynamoDB 2012-08-10 in us-east-1" [first_page] 2); try reflexivity.
    + eapply fails_later; [reflexivity..|]. by eapply fails_now.
    + cbn. lia.
Defined.

(** A table name that is the empty string is not sent as a place to start
    from: the service is asked for its first page again. *)
Example empty_last_name_restarts :
  start_name (Some "") = None /\ start_name (Some "orders-us") = Some "orders-us".
Proof. by split. Qed.

End Provider.

(** ** The attribute serializers

    A serializer turns a value of an attribute into the single-tag record
    stored for it, and back. The JSON codec, the compression and the ciphers
    are those of the platform and are parameters here; bytes are [Byte.byte],
    and a string is the sequence of its (UTF-8) bytes. *)

Module Serialization.

#[global] Instance Completion_bind : MBind Completion :=
  fun A B f c => match c with Normal a => f a | Throw m => Throw m end.

(** What the single property of a wire record holds. *)
Inductive Payload :=
| Text (s : string)
| Buffer (b : list Byte.byte).

(** The wire record [{ tag: payload }], [tag] being the code of a data type. *)
Record Wire := { tag : DataType.t; payload : Payload }.

Inductive Kind :=
| StringSerializer
| JsonSerializer
| CompressedJsonSerializer
| EncryptedJsonSerializer
| EncryptedStringSerializer.

(** One reversible step on bytes. *)
Record Layer := {
  apply : list Byte.byte -> list Byte.byte;
  undo : list Byte.byte -> option (list Byte.byte)
}.

(** [undo] is the byte-exact inverse of [apply]. *)
Definition inverse (l : Layer) : Prop := forall b, undo l (apply l b) = Some b.

(** The layers are applied first to last, and undone last to first. *)
Definition encode (ls : list Layer) (b : list Byte.byte) : list Byte.byte :=
  fold_left (fun acc l => apply l acc) ls b.

Fixpoint decode (ls : list Layer) (b : list Byte.byte) : option (list Byte.byte) :=
  match ls with
  | [] => Some b
  | l :: rest => decode rest b ≫= undo l
  end.

(** *** Stand-ins for the platform, to run the serializers

    A JSON codec for the two boolean documents, a compression that reverses
    the bytes, and a cipher that prefixes the bytes with the key and refuses
    bytes that do not start with it. *)

Module Model.

Definition stringify (j : bool) : string := if j then "true" else "false".

Definition parse (text : string) : option bool :=
  if String.eqb text "true" then Some true
  else if String.eqb text "false" then Some false
  else None.

Definition compress (b : list Byte.byte) : list Byte.byte := rev b.
Definition decompress (b : list Byte.byte) : option (list Byte.byte) := Some (rev b).

Fixpoint strip (p b : list Byte.byte) : option (list Byte.byte) :=
  match p, b with
  | [], _ => Some b
  | x :: p', y :: b' => if Byte.eqb x y then strip p' b' else None
  | _ :: _, [] => None
  end.

Definition encrypt (t : EncryptionType.t) (key : string) (b : list Byte.byte)
    : list Byte.byte :=
  list_byte_of_string key ++ b.

Definition decrypt (t : EncryptionType.t) (key : string) (b : list Byte.byte)
    : option (list Byte.byte) :=
  strip (list_byte_of_string key) b.

(** The attribute of the repository's test of [EncryptedStringSerializer]. *)
Definition test_attribute : Attribute.t :=
  {| Attribute.name := "test"; Attribute.dataType := DataType.STRING;
     Attribute.encryptor :=
       Some {| Encryptor.type := EncryptionType.AES_192;
               Encryptor.key := "this-is-a-simple-test" |} |}.

End Model.

Section Serializers.

(** The values of JSON attributes, with [JSON.stringify] and [JSON.parse];
    the compression; the cipher of each encryption type under a key. *)
Context {Json : Type}.
Variable stringify : Json -> string.
Variable parse : string -> option Json.
Variable compress : list Byte.byte -> list Byte.byte.
Variable decompress : list Byte.byte -> option (list Byte.byte).
Variable encrypt : EncryptionType.t -> string -> list Byte.byte -> list Byte.byte.
Variable decrypt : EncryptionType.t -> string -> list Byte.byte -> option (list Byte.byte).

Inductive Value :=
| Str (s : string)
| Obj (j : Json).

(** The declared domain of each serializer. *)
Definition in_domain (k : Kind) (v : Value) : Prop :=
  match k, v with
  | (StringSerializer | EncryptedStringSerializer), Str _ => True
  | (JsonSerializer | CompressedJsonSerializer | EncryptedJsonSerializer), Obj _ => True
  | _, _ => False
  end.

Definition compression : Layer := {| apply := compress; undo := decompress |}.

Definition encryption (e : Encryptor.t) : Layer :=
  {| apply := encrypt (Encryptor.type e) (Encryptor.key e);
     undo := decrypt (Encryptor.type e) (Encryptor.key e) |}.

(** [EncryptedJsonSerializer._getEncryptor] returns the encryptor of the
    attribute. Modelled from the spec for the other kinds: the encrypted
    string serializer uses it too, the others have none. *)
Definition _getEncryptor (k : Kind) (a : Attribute.t) : option Encryptor.t :=
  match k with
  | EncryptedJsonSerializer | EncryptedStringSerializer => Attribute.encryptor a
  | _ => None
  end.

Definition encrypts (k : Kind) : bool :=
  match k with
  | EncryptedJsonSerializer | EncryptedStringSerializer => true
  | _ => false
  end.

Definition compresses (k : Kind) : bool :=
  match k with
  | CompressedJsonSerializer | EncryptedJsonSerializer => true
  | _ => false
  end.

(** The serializer can be used with the attribute: an encrypting one needs
    the attribute to have an encryptor. *)
Definition configured (k : Kind) (a : Attribute.t) : Prop :=
  encrypts k = true -> is_Some (Attribute.encryptor a).

(** Modelled from the spec: the serializers of section 4.2, of which only
    [EncryptedJsonSerializer] is in this unit, and that one inherits
    [serialize] and [deserialize]. The order is fixed: encode, compress,
    encrypt, tag. An encrypting serializer on an attribute without encryptor
    is a configuration error. *)
Definition layers (k : Kind) (a : Attribute.t) : Completion (list Layer) :=
  let zip := if compresses k then [compression] else [] in
  if encrypts k then
    match _getEncryptor k a with
    | Some e => Normal (zip ++ [encryption e])
    | None => Throw "ConfigurationError: the attribute has no encryptor."
    end
  else Normal zip.

(** The tag of the record: binary once the bytes are compressed or
    encrypted, string otherwise. *)
Definition wire_type (k : Kind) : DataType.t :=
  if compresses k || encrypts k then DataType.BINARY else DataType.STRING.

(** Modelled from the spec: the text a value is encoded as, the string itself
    or the JSON text of the object. *)
Definition to_text (k : Kind) (v : Value) : Completion string :=
  match k, v with
  | (StringSerializer | EncryptedStringSerializer), Str s => Normal s
  | (JsonSerializer | CompressedJsonSerializer | EncryptedJsonSerializer), Obj j =>
      Normal (stringify j)
  | _, _ => Throw "SerializationError: the value is not in the domain of the serializer."
  end.

Definition of_text (k : Kind) (text : string) : Completion Value :=
  match k with
  | StringSerializer | EncryptedStringSerializer => Normal (Str text)
  | JsonSerializer | CompressedJsonSerializer | EncryptedJsonSerializer =>
      match parse text with
      | Some j => Normal (Obj j)
      | None => Throw "SerializationError: the text is not JSON."
      end
  end.

(** Modelled from the spec: [serialize]. *)
Definition serialize (k : Kind) (a : Attribute.t) (v : Value) : Completion Wire :=
  text ← to_text k v;
  ls ← layers k a;
  Normal {| tag := wire_type k;
            payload := match wire_type k with
                       | DataType.BINARY => Buffer (encode ls (list_byte_of_string text))
                       | _ => Text text
                       end |}.

(** Modelled from the spec: [deserialize], which undoes the layers in the
    opposite order and fails on a record with another tag or with a payload
    that does not decode. *)
Definition deserialize (k : Kind) (a : Attribute.t) (w : Wire) : Completion Value :=
  ls ← layers k a;
  if negb (DataType.eqb (tag w) (wire_type k))
  then Throw "SerializationError: the record has no property of the expected type."
  else
    match payload w with
    | Text text =>
        if DataType.eqb (wire_type k) DataType.STRING then of_text k text
        else Throw "SerializationError: the payload is not a buffer."
    | Buffer b =>
        if DataType.eqb (wire_type k) DataType.BINARY then
          match decode ls b with
          | Some bytes => of_text k (string_of_list_byte bytes)
          | None => Throw "SerializationError: the payload does not decode."
          end
        else Throw "SerializationError: the payload is not a string."
    end.

(** *** Round trips *)

(** A pipeline of inverse layers is inverted by undoing them in the opposite
    order. *)
Lemma pipeline_roundtrip (ls : list Layer) (b : list Byte.byte) :
  Forall inverse ls -> decode ls (encode ls b) = Some b.
Proof.
  intros Hls. revert b. induction Hls as [|l ls Hl _ IH]; intros b; [done|].
  cbn. unfold encode in IH. rewrite IH. cbn. apply Hl.
Qed.

Lemma layers_inverse (k : Kind) (a : Attribute.t) (ls : list Layer) :
  (forall b, decompress (compress b) = Some b) ->
  (forall t key b, decrypt t key (encrypt t key b) = Some b) ->
  layers k a = Normal ls -> Forall inverse ls.
Proof.
  intros Hzip Hcipher. unfold layers.
  assert (inverse compression) as Hc by (intros b; apply Hzip).
  assert (forall e, inverse (encryption e)) as He by (intros e b; apply Hcipher).
  destruct k; cbn; try (intros [= <-]; by repeat constructor);
    destruct (Attribute.encryptor a); intros [= <-]; by repeat constructor.
Qed.

Lemma of_text_to_text (k : Kind) (v : Value) (text : string) :
  (forall j, parse (stringify j) = Some j) ->
  to_text k v = Normal text -> of_text k text = Normal v.
Proof.
  intros Hjson.
  destruct k, v as [s|j]; cbn; try done; intros [= <-]; try done;
    by rewrite Hjson.
Qed.

(** C1. For every serializer and every value in its domain, on an attribute
    the serializer is configured for, [serialize] returns a record with the
    tag of the serializer and [deserialize] returns the value from it. The
    layers used in both directions are the same list, each with [undo] the
    inverse of [apply], applied in order and undone in the opposite order.
    The JSON codec, the compression and the ciphers are taken to be
    inverses. *)
Theorem serializers_roundtrip (k : Kind) (a : Attribute.t) (v : Value) :
  (forall j, parse (stringify j) = Some j) ->
  (forall b, decompress (compress b) = Some b) ->
  (forall t key b, decrypt t key (encrypt t key b) = Some b) ->
  in_domain k v ->
  configured k a ->
  exists ls w,
    layers k a = Normal ls /\
    Forall inverse ls /\
    (forall b, decode ls (encode ls b) = Some b) /\
    serialize k a v = Normal w /\
    tag w = wire_type k /\
    deserialize k a w = Normal v.
Proof.
  intros Hjson Hzip Hcipher Hdom Hconf.
  assert (exists text, to_text k v = Normal text) as [text Htext].
  { destruct k, v; cbn in *; try done; by eexists. }
  assert (exists ls, layers k a = Normal ls) as [ls Hls].
  { unfold layers, configured in *. destruct (encrypts k) eqn:Hk; [|by eexists].
    destruct Hconf as [e He]; [done|].
    assert (_getEncryptor k a = Some e) as ->; [|by eexists].
    by destruct k. }
  pose proof (layers_inverse k a ls Hzip Hcipher Hls) as Hinv.
  pose proof (of_text_to_text k v text Hjson Htext) as Hback.
  exists ls. eexists. split; [done|]. split; [done|].
  split; [intros b; by apply pipeline_roundtrip|].
  unfold serialize, deserialize. rewrite Htext, Hls. cbn.
  split; [reflexivity|]. split; [reflexivity|].
  destruct (wire_type k) eqn:Hty; cbn; try done.
  - destruct k; discriminate.
  - rewrite pipeline_roundtrip by done. by rewrite string_of_list_byte_of_string.
  - destruct k; discriminate.
Qed.

End Serializers.

(** *** The serializers run *)

Lemma strip_app (p b : list Byte.byte) : Model.strip p (p ++ b) = Some b.
Proof.
  induction p as [|x p IH]; [done|]. cbn.
  by rewrite (Byte.byte_dec_lb (eq_refl x)).
Qed.

Lemma model_json (j : bool) : Model.parse (Model.stringify j) = Some j.
Proof. by destruct j. Qed.

Lemma model_compression (b : list Byte.byte) :
  Model.decompress (Model.compress b) = Some b.
Proof. unfold Model.decompress, Model.compress. by rewrite rev_involutive. Qed.

Lemma model_cipher (t : EncryptionType.t) (key : string) (b : list Byte.byte) :
  Model.decrypt t key (Model.encrypt t key b) = Some b.
Proof. apply strip_app. Qed.

Definition serialize_model :=
  serialize Model.stringify Model.compress Model.decompress Model.encrypt Model.decrypt.

Definition deserialize_model :=
  deserialize Model.parse Model.compress Model.decompress Model.encrypt Model.decrypt.

(** The test of the repository: the string [abc] through the encrypted
    string serializer, AES-192 under the test key. *)
Example encrypted_string_test :
  exists w,
    serialize_model EncryptedStringSerializer Model.test_attribute (Str "abc") = Normal w /\
    tag w = DataType.BINARY /\
    deserialize_model EncryptedStringSerializer Model.test_attribute w = Normal (Str "abc").
Proof. eexists. repeat split. Qed.

(** Without an encryptor the encrypted serializers cannot be used. *)
Example encrypted_json_needs_encryptor :
  serialize_model EncryptedJsonSerializer
    {| Attribute.name := "test"; Attribute.dataType := DataType.STRING;
       Attribute.encryptor := None |} (Obj true) =
  Throw "ConfigurationError: the attribute has no encryptor.".
Proof. reflexivity. Qed.

(** Undoing the layers in the order they were applied does not give the
    bytes back. *)
Example same_order_does_not_invert :
  let zip := compression Model.compress Model.decompress in
  let cipher := encryption Model.encrypt Model.decrypt
                  {| Encryptor.type := EncryptionType.AES_192; Encryptor.key := "k" |} in
  let b := list_byte_of_string "abc" in
  decode [zip; cipher] (encode [zip; cipher] b) = Some b /\
  decode [cipher; zip] (encode [zip; cipher] b) = None.
Proof. split; reflexivity. Qed.

Lemma serializers_roundtrip_witness :
  exists w,
    serialize_model EncryptedJsonSerializer Model.test_attribute (Obj true) = Normal w /\
    deserialize_model EncryptedJsonSerializer Model.test_attribute w = Normal (Obj true).
Proof.
  destruct (serializers_roundtrip Model.stringify Model.parse
              Model.compress Model.decompress Model.encrypt Model.decrypt
              EncryptedJsonSerializer Model.test_attribute (Obj true)
              model_json model_compression model_cipher)
    as (ls & w & _ & _ & _ & Hs & _ & Hd).
  - exact I.
  - intros _. by eexists.
  - by exists w.
Defined.

End Serialization.

(** ** The Lambda builder

    [LambdaBuilder] collects the parts of a Lambda function: each [with...] or
    [using...] method fills a field and returns the builder, or throws when
    the field has been filled before. *)

Module Lambda.

(** The double quote, which the messages of the builder put around the name
    of a field. *)
Definition quoted (s : string) : string :=
  let mark := String (Ascii.ascii_of_nat 34) EmptyString in mark ++ s ++ mark.

Section Builder.

(** The values the builder stores are opaque to it: the environment, the
    functions, and the processor, which is what [MessageProcessor.fromFunction]
    returns or a [new MessageRouter()]. *)
Context {Environment Extractor Fn Transformer Initializer Processor : Type}.

Variable fromFunction : Fn -> Processor.
Variable new_MessageRouter : Processor.

(** [{name: componentName, initializer: componentInitializer}] *)
Record Component := {
  name : string;
  initializer : Initializer
}.

Record LambdaBuilder := {
  _environment : option Environment;
  _messageExtractor : option Extractor;
  _messageProcessor : option Processor;
  _outputTransformer : option Transformer;
  _componentInitializers : list Component
}.

(** The constructor. *)
Definition new : LambdaBuilder :=
  {| _environment := None; _messageExtractor := None; _messageProcessor := None;
     _outputTransformer := None; _componentInitializers := [] |}.

(** A method returns [this], or throws; either way the builder is left in
    some state. *)
Definition withEnvironment (environment : Environment) (b : LambdaBuilder) :
    Completion unit * LambdaBuilder :=
  match _environment b with
  | Some _ => (Throw ("The " ++ quoted "environment" ++ " has already been defined"), b)
  | None =>
      (Normal tt,
       {| _environment := Some environment;
          _messageExtractor := _messageExtractor b;
          _messageProcessor := _messageProcessor b;
          _outputTransformer := _outputTransformer b;
          _componentInitializers := _componentInitializers b |})
  end.

Definition usingMessageExtractor (messageExtractor : Extractor) (b : LambdaBuilder) :
    Completion unit * LambdaBuilder :=
  match _messageExtractor b with
  | Some _ => (Throw ("The " ++ quoted "messageExtractor" ++ " has already been defined"), b)
  | None =>
      (Normal tt,
       {| _environment := _environment b;
          _messageExtractor := Some messageExtractor;
          _messageProcessor := _messageProcessor b;
          _outputTransformer := _outputTransformer b;
          _componentInitializers := _componentInitializers b |})
  end.

Definition set_messageProcessor (p : Processor) (b : LambdaBuilder) : LambdaBuilder :=
  {| _environment := _environment b;
     _messageExtractor := _messageExtractor b;
     _messageProcessor := Some p;
     _outputTransformer := _outputTransformer b;
     _componentInitializers := _componentInitializers b |}.

Definition usingMessageProcessor (messageProcessor : Fn) (b : LambdaBuilder) :
    Completion unit * LambdaBuilder :=
  match _messageProcessor b with
  | Some _ =>
      (Throw ("The " ++ quoted "messageProcessor" ++ " (or router) has already been defined"), b)
  | None => (Normal tt, set_messageProcessor (fromFunction messageProcessor) b)
  end.

(** [usingMessageRouter(callback)]: the new router is stored first and then
    handed to the callback, which adds its routes to it (the router it leaves
    behind is the second component) and may throw. *)
Definition usingMessageRouter (callback : Processor -> Completion unit * Processor)
    (b : LambdaBuilder) : Completion unit * LambdaBuilder :=
  match _messageProcessor b with
  | Some _ =>
      (Throw ("The " ++ quoted "messageRouter" ++ " (or processor) has already been defined"), b)
  | None =>
      let (outcome, router) := callback new_MessageRouter in
      (outcome, set_messageProcessor router b)
  end.

Definition usingOutputProcessor (outputTransformer : Transformer) (b : LambdaBuilder) :
    Completion unit * LambdaBuilder :=
  match _outputTransformer b with
  | Some _ => (Throw ("The " ++ quoted "outputTransformer" ++ " has already been defined"), b)
  | None =>
      (Normal tt,
       {| _environment := _environment b;
          _messageExtractor := _messageExtractor b;
          _messageProcessor := _messageProcessor b;
          _outputTransformer := Some outputTransformer;
          _componentInitializers := _componentInitializers b |})
  end.

(** [this._componentInitializers.find((c) => c.name === componentName)] *)
Definition find_name (componentName : string) (l : list Component) : option Component :=
  List.find (fun c => String.eqb (name c) componentName) l.
Arguments find_name : simpl never.

Definition usingComponentInitializer (componentInitializer : Initializer)
    (componentName : string) (b : LambdaBuilder) : Completion unit * LambdaBuilder :=
  match find_name componentName (_componentInitializers b) with
  | Some _ =>
      (Throw "A component initializer with the same name has already been defined", b)
  | None =>
      (Normal tt,
       {| _environment := _environment b;
          _messageExtractor := _messageExtractor b;
          _messageProcessor := _messageProcessor b;
          _outputTransformer := _outputTransformer b;
          _componentInitializers :=
            _componentInitializers b ++
            [{| name := componentName; initializer := componentInitializer |}] |})
  end.

(** A call of one of the methods, and a program that makes one call after
    the other on the same builder, going on after a call that threw. *)
Inductive Call :=
| WithEnvironment (environment : Environment)
| UsingMessageExtractor (messageExtractor : Extractor)
| UsingMessageProcessor (messageProcessor : Fn)
| UsingMessageRouter (callback : Processor -> Completion unit * Processor)
| UsingOutputProcessor (outputTransformer : Transformer)
| UsingComponentInitializer (componentInitializer : Initializer) (componentName : string).

Definition call (c : Call) (b : LambdaBuilder) : Completion unit * LambdaBuilder :=
  match c with
  | WithEnvironment e => withEnvironment e b
  | UsingMessageExtractor x => usingMessageExtractor x b
  | UsingMessageProcessor f => usingMessageProcessor f b
  | UsingMessageRouter callback => usingMessageRouter callback b
  | UsingOutputProcessor t => usingOutputProcessor t b
  | UsingComponentInitializer i n => usingComponentInitializer i n b
  end.

Definition configure (calls : list Call) (b : LambdaBuilder) : LambdaBuilder :=
  fold_left (fun b c => (call c b).2) calls b.

(** What the calls of a program ask for, field by field, in the order of the
    calls. *)
Definition environments (calls : list Call) : list Environment :=
  omap (fun c => match c with WithEnvironment e => Some e | _ => None end) calls.

Definition extractors (calls : list Call) : list Extractor :=
  omap (fun c => match c with UsingMessageExtractor x => Some x | _ => None end) calls.

Definition processors (calls : list Call) : list Processor :=
  omap (fun c => match c with
                 | UsingMessageProcessor f => Some (fromFunction f)
                 | UsingMessageRouter callback => Some (callback new_MessageRouter).2
                 | _ => None
                 end) calls.

Definition transformers (calls : list Call) : list Transformer :=
  omap (fun c => match c with UsingOutputProcessor t => Some t | _ => None end) calls.

Definition components (calls : list Call) : list Component :=
  omap (fun c => match c with
                 | UsingComponentInitializer i n => Some {| name := n; initializer := i |}
                 | _ => None
                 end) calls.

(** A field that is filled stays as it is; an empty one takes the first
    value asked for. *)
Definition or_else {A} (held asked : option A) : option A :=
  match held with Some a => Some a | None => asked end.

Lemma find_name_app (n : string) (l1 l2 : list Component) :
  find_name n (l1 ++ l2) = or_else (find_name n l1) (find_name n l2).
Proof.
  unfold find_name. induction l1 as [|c l1 IH]; cbn; [done|].
  by destruct (String.eqb (name c) n).
Qed.

Lemma or_else_assoc {A} (x y z : option A) :
  or_else (or_else x y) z = or_else x (or_else y z).
Proof. by destruct x. Qed.

Lemma configure_cons (c : Call) (calls : list Call) (b : LambdaBuilder) :
  configure (c :: calls) b = configure calls (call c b).2.
Proof. reflexivity. Qed.

Lemma head_app_or_else {A} (l1 l2 : list A) :
  head (l1 ++ l2) = or_else (head l1) (head l2).
Proof. by destruct l1. Qed.

Lemma omap_cons_app {A B} (f : A -> option B) (a : A) (l : list A) :
  omap f (a :: l) = omap f [a] ++ omap f l.
Proof. cbn. by destruct (f a). Qed.

(** One call, field by field. *)
Lemma call_fields (c : Call) (b : LambdaBuilder) :
  _environment (call c b).2 = or_else (_environment b) (head (environments [c])) /\
  _messageExtractor (call c b).2 = or_else (_messageExtractor b) (head (extractors [c])) /\
  _messageProcessor (call c b).2 = or_else (_messageProcessor b) (head (processors [c])) /\
  _outputTransformer (call c b).2 =
    or_else (_outputTransformer b) (head (transformers [c])) /\
  forall n, find_name n (_componentInitializers (call c b).2) =
            or_else (find_name n (_componentInitializers b)) (find_name n (components [c])).
Proof.
  assert (forall A (x : option A), x = or_else x None) as Hnone by (by intros A []).
  destruct c as [e|x|f|callback|t|i m]; cbn.
  - unfold withEnvironment. destruct (_environment b) eqn:E; cbn; rewrite ?E;
      repeat split; auto.
  - unfold usingMessageExtractor. destruct (_messageExtractor b) eqn:E; cbn; rewrite ?E;
      repeat split; auto.
  - unfold usingMessageProcessor. destruct (_messageProcessor b) eqn:E; cbn; rewrite ?E;
      repeat split; auto.
  - unfold usingMessageRouter. destruct (_messageProcessor b) eqn:E; cbn; rewrite ?E;
      [repeat split; auto|].
    destruct (callback new_MessageRouter) as [outcome router]; cbn.
    repeat split; auto.
  - unfold usingOutputProcessor. destruct (_outputTransformer b) eqn:E; cbn; rewrite ?E;
      repeat split; auto.
  - unfold usingComponentInitializer.
    destruct (find_name m (_componentInitializers b)) as [c|] eqn:E; cbn;
      repeat split; auto; intros n.
    + destruct (find_name n (_componentInitializers b)) eqn:En; [done|].
      unfold find_name. cbn.
      destruct (String.eqb m n) eqn:Emn; [|done].
      apply String.eqb_eq in Emn as ->. congruence.
    + by rewrite find_name_app.
Qed.

Lemma configure_fields (calls : list Call) (b : LambdaBuilder) :
  _environment (configure calls b) = or_else (_environment b) (head (environments calls)) /\
  _messageExtractor (configure calls b) =
    or_else (_messageExtractor b) (head (extractors calls)) /\
  _messageProcessor (configure calls b) =
    or_else (_messageProcessor b) (head (processors calls)) /\
  _outputTransformer (configure calls b) =
    or_else (_outputTransformer b) (head (transformers calls)) /\
  forall n, find_name n (_componentInitializers (configure calls b)) =
            or_else (find_name n (_componentInitializers b)) (find_name n (components calls)).
Proof.
  revert b. induction calls as [|c calls IH]; intros b.
  - cbn. repeat split; try by destruct b as [[] [] [] [] ?].
    intros n. by destruct (find_name n _).
  - rewrite configure_cons.
    destruct (IH (call c b).2) as (He & Hx & Hp & Ht & Hc).
    destruct (call_fields c b) as (He1 & Hx1 & Hp1 & Ht1 & Hc1).
    unfold environments, extractors, processors, transformers, components in *.
    rewrite He, Hx, Hp, Ht, He1, Hx1, Hp1, Ht1.
    rewrite !(omap_cons_app _ c calls), !head_app_or_else, !or_else_assoc.
    repeat split; try done.
    intros n. by rewrite Hc, Hc1, find_name_app, or_else_assoc.
Qed.

Lemma find_name_None (n : string) (l : list Component) :
  find_name n l = None <-> n ∉ name <$> l.
Proof.
  unfold find_name. induction l as [|c l IH]; cbn.
  - split; [intros _; apply not_elem_of_nil|done].
  - rewrite not_elem_of_cons. destruct (String.eqb (name c) n) eqn:E.
    + apply String.eqb_eq in E. split; [done|]. intros [H _]. by destruct H.
    + apply String.eqb_neq in E. rewrite IH. split; [intros H; split; [congruence|done]|by intros [_ H]].
Qed.

Lemma call_names (c : Call) (b : LambdaBuilder) :
  NoDup (name <$> _componentInitializers b) ->
  NoDup (name <$> _componentInitializers (call c b).2).
Proof.
  intros Hb. destruct c as [e|x|f|callback|t|i m]; cbn.
  - unfold withEnvironment. by destruct (_environment b).
  - unfold usingMessageExtractor. by destruct (_messageExtractor b).
  - unfold usingMessageProcessor. by destruct (_messageProcessor b).
  - unfold usingMessageRouter. destruct (_messageProcessor b); [done|].
    by destruct (callback new_MessageRouter).
  - unfold usingOutputProcessor. by destruct (_outputTransformer b).
  - unfold usingComponentInitializer.
    destruct (find_name m (_componentInitializers b)) eqn:E; [done|]. cbn.
    rewrite fmap_app. apply NoDup_app. split; [done|]. split.
    + intros n Hn ->%list_elem_of_singleton. by apply find_name_None in E.
    + apply NoDup_singleton.
Qed.

Lemma configure_names (calls : list Call) (b : LambdaBuilder) :
  NoDup (name <$> _componentInitializers b) ->
  NoDup (name <$> _componentInitializers (configure calls b)).
Proof.
  revert b. induction calls as [|c calls IH]; intros b Hb; [done|].
  rewrite configure_cons. by apply IH, call_names.
Qed.

(** X14. Whatever calls are made on a new builder, in whatever order and
    whether they throw or not: each field holds what the first call for it
    asked for (the processor and the router share one field), the names of
    the components are pairwise distinct, and under each name is the
    initializer of the first call that gave the name. *)
Theorem first_call_wins (calls : list Call) :
  _environment (configure calls new) = head (environments calls) /\
  _messageExtractor (configure calls new) = head (extractors calls) /\
  _messageProcessor (configure calls new) = head (processors calls) /\
  _outputTransformer (configure calls new) = head (transformers calls) /\
  NoDup (name <$> _componentInitializers (configure calls new)) /\
  forall n, find_name n (_componentInitializers (configure calls new)) =
            find_name n (components calls).
Proof.
  destruct (configure_fields calls new) as (He & Hx & Hp & Ht & Hc).
  split; [exact He|]. split; [exact Hx|]. split; [exact Hp|]. split; [exact Ht|].
  split; [|exact Hc].
  apply configure_names. constructor.
Qed.

(** X15. A call that throws leaves the builder as it was, except
    [usingMessageRouter]: when its callback throws, the router is in place
    already, so the call fails and yet takes the field, and a processor can
    no longer be given. *)
Theorem failed_call_keeps_builder (c : Call) (b : LambdaBuilder) (msg : string) :
  (call c b).1 = Throw msg ->
  (call c b).2 = b \/
  exists callback,
    c = UsingMessageRouter callback /\
    _messageProcessor b = None /\
    (callback new_MessageRouter).1 = Throw msg /\
    _messageProcessor (call c b).2 = Some (callback new_MessageRouter).2 /\
    forall f, exists m, usingMessageProcessor f (call c b).2 = (Throw m, (call c b).2).
Proof.
  destruct c as [e|x|f|callback|t|i m]; cbn.
  - unfold withEnvironment. destruct (_environment b); [by left|done].
  - unfold usingMessageExtractor. destruct (_messageExtractor b); [by left|done].
  - unfold usingMessageProcessor. destruct (_messageProcessor b); [by left|done].
  - unfold usingMessageRouter. destruct (_messageProcessor b) eqn:E; [by left|].
    destruct (callback new_MessageRouter) as [outcome router] eqn:Ec. cbn.
    intros ->. right. exists callback. rewrite Ec. cbn.
    split; [done|]. split; [done|]. split; [done|]. split; [done|].
    intros f. by eexists.
  - unfold usingOutputProcessor. destruct (_outputTransformer b); [by left|done].
  - unfold usingComponentInitializer.
    destruct (find_name m (_componentInitializers b)); [by left|done].
Qed.

End Builder.

(** *** A run of the builder

    Environments, functions and initializers are named by strings; a
    processor is the list of the routes it knows. *)

Definition fromFunction_model (f : string) : list string := [f].

Definition broken_routes (router : list string) : Completion unit * list string :=
  (Throw "RouteError: no handler given", router ++ ["/orders"]).

Definition call_model : Call -> LambdaBuilder -> Completion unit * LambdaBuilder :=
  call (Environment := string) (Extractor := string) (Transformer := string)
    (Initializer := string) fromFunction_model [].

Example second_calls_are_refused :
  let b := configure fromFunction_model []
             [UsingComponentInitializer "s3 initializer" "s3";
              WithEnvironment "production";
              UsingComponentInitializer "another initializer" "s3";
              UsingMessageProcessor "handler";
              WithEnvironment "staging";
              UsingMessageRouter broken_routes;
              UsingComponentInitializer "sns initializer" "sns"]
             (new (Extractor := string) (Transformer := string)) in
  _environment b = Some "production" /\
  _messageProcessor b = Some ["handler"] /\
  _componentInitializers b =
    [{| name := "s3"; initializer := "s3 initializer" |};
     {| name := "sns"; initializer := "sns initializer" |}].
Proof. by repeat split. Qed.

Lemma failed_call_keeps_builder_witness :
  (call_model (UsingMessageRouter broken_routes) new).1 =
    Throw "RouteError: no handler given" /\
  _messageProcessor (call_model (UsingMessageRouter broken_routes) new).2 =
    Some ["/orders"] /\
  exists m,
    usingMessageProcessor fromFunction_model "handler"
      (call_model (UsingMessageRouter broken_routes) new).2 =
    (Throw m, (call_model (UsingMessageRouter broken_routes) new).2).
Proof.
  split; [reflexivity|]. split; [reflexivity|].
  destruct (failed_call_keeps_builder (Environment := string) (Extractor := string)
              (Transformer := string) (Initializer := string)
              fromFunction_model [] (UsingMessageRouter broken_routes) new
              "RouteError: no handler given" eq_refl)
    as [H|(callback & _ & _ & _ & _ & H)].
  - discriminate H.
  - apply H.
Defined.

End Lambda.
